(** * Item-level access-control lists of the 61040-a5 backend

    Shallow embedding of the two versions of [AccessListConcept]:
    - [AccessListTs]: src/server/concepts/accessList.ts, records addressed
      by their own [_id];
    - [AccessListItem]: src/unnamed/part_001, records carrying an extra
      [item] field, with [canView] and the bulk operations.

    Both run against the same document collection [accessList], modelled
    below as a MongoDB collection: an ordered list of documents, equality
    filters on named fields, [readOne]/[updateOne]/[deleteOne] acting on the
    first matching document.  ObjectIds (record ids and user ids alike) are
    [nat]; [x.toString() === y.toString()] is [Nat.eqb x y]. *)

From Stdlib Require Import List Arith Bool ZArith Lia.
Import ListNotations.

Definition ObjectId := nat.

(** ** Documents *)

(** [ItemAccessDoc] with its [BaseDoc] id.  The [item] field exists only in
    the documents of part_001; the documents of accessList.ts have none. *)
Record ItemAccessDoc := mkDoc {
  _id : ObjectId;
  item : option ObjectId;
  owner : ObjectId;
  editors : list ObjectId;
  viewers : list ObjectId
}.

(** Field names that occur in the filters of the source. *)
Inductive field := F_id | Fitem | FitemId | Fowner.

(** Value of a (scalar) field in a document; [itemId] is not a field of
    [ItemAccessDoc], so no document has it. *)
Definition field_value (d : ItemAccessDoc) (f : field) : option ObjectId :=
  match f with
  | F_id => Some (_id d)
  | Fitem => item d
  | FitemId => None
  | Fowner => Some (owner d)
  end.

(** JS [Array.prototype.includes] on the [toString] images. *)
Definition includes (l : list ObjectId) (u : ObjectId) : bool :=
  existsb (Nat.eqb u) l.

(** A clause of a query document: [{ f: v }], or
    [$or: [{ viewers: user }, { editors: user }]] (array fields match when
    they contain the value). *)
Inductive clause :=
  | Eq (f : field) (v : ObjectId)
  | OrViewersEditors (user : ObjectId).

Definition Filter := list clause.

Definition clause_matches (d : ItemAccessDoc) (c : clause) : bool :=
  match c with
  | Eq f v =>
      match field_value d f with
      | Some w => Nat.eqb w v
      | None => false
      end
  | OrViewersEditors u => includes (viewers d) u || includes (editors d) u
  end.

Definition matches (q : Filter) (d : ItemAccessDoc) : bool :=
  forallb (clause_matches d) q.

(** The partial updates [{ viewers: ... }] and [{ editors: ... }]. *)
Inductive update :=
  | SetViewers (l : list ObjectId)
  | SetEditors (l : list ObjectId).

Definition apply_update (u : update) (d : ItemAccessDoc) : ItemAccessDoc :=
  match u with
  | SetViewers l => mkDoc (_id d) (item d) (owner d) (editors d) l
  | SetEditors l => mkDoc (_id d) (item d) (owner d) l (viewers d)
  end.

(** The collection, with the counter from which fresh ObjectIds are drawn. *)
Record store := mkStore {
  docs : list ItemAccessDoc;
  next_id : ObjectId
}.

(** ** Errors and results *)

Inductive AccessError :=
  | NotFoundError (id : ObjectId)
  | ItemOwnerNotMatchError (user id : ObjectId)
  | ItemViewerNotMatchError (user id : ObjectId)
  | ItemEditorNotMatchError (user id : ObjectId)
  | AccessRestrictedError (user id : ObjectId).

(** Every error class but [NotFoundError] extends [NotAllowedError]. *)
Definition is_not_allowed (e : AccessError) : bool :=
  match e with
  | NotFoundError _ => false
  | _ => true
  end.

(** The [{ msg: ... }] values returned by the operations. *)
Inductive Msg :=
  | ItemAdded (d : option ItemAccessDoc)      (* "Item successfully added!" *)
  | ItemDeleted                               (* "Item deleted successfully!" *)
  | AlreadyViewer (user id : ObjectId)        (* "${user} is already a viewer of ${_id}" *)
  | ViewersUpdated                            (* "Viewers successfully updated!" *)
  | AlreadyEditor (user id : ObjectId)        (* "${user} is already an editor of ${_id}" *)
  | EditorsUpdated                            (* "Editors successfully updated!" *)
  | AlreadyRestricted (user id : ObjectId)    (* "${user} is already restricted from seeing ${_id}" *)
  | AllItemsUpdated                           (* "Access to all items successfully updated!" *)
  | AccessForUpdated (user : ObjectId)        (* "Access for ${user} was successfully updated!" *)
  | Undefined.                                (* falling off the end of an async function *)

(** ** A state and exception monad for the async methods *)

Inductive outcome (A : Type) :=
  | Ret (a : A)
  | Throw (e : AccessError).
Arguments Ret {A} a.
Arguments Throw {A} e.

Definition M (A : Type) := store -> outcome A * store.

Definition ret {A} (a : A) : M A := fun st => (Ret a, st).
Definition throw {A} (e : AccessError) : M A := fun st => (Throw e, st).
Definition bind {A B} (m : M A) (k : A -> M B) : M B :=
  fun st => match m st with
            | (Ret a, st') => k a st'
            | (Throw e, st') => (Throw e, st')
            end.
(** [try { m } catch (e) { h e }] *)
Definition catch {A} (m : M A) (h : AccessError -> M A) : M A :=
  fun st => match m st with
            | (Throw e, st') => h e st'
            | r => r
            end.

Notation "x <- m ;; k" := (bind m (fun x => k))
  (at level 61, m at next level, right associativity).
Notation "m ;; k" := (bind m (fun _ => k))
  (at level 61, right associativity).

(** ** The [DocCollection] primitives *)

Definition readOne (q : Filter) : M (option ItemAccessDoc) :=
  fun st => (Ret (find (matches q) (docs st)), st).

Definition readMany (q : Filter) : M (list ItemAccessDoc) :=
  fun st => (Ret (filter (matches q) (docs st)), st).

Fixpoint update_first (q : Filter) (u : update) (l : list ItemAccessDoc) :=
  match l with
  | [] => []
  | d :: l' => if matches q d then apply_update u d :: l'
               else d :: update_first q u l'
  end.

Fixpoint delete_first (q : Filter) (l : list ItemAccessDoc) :=
  match l with
  | [] => []
  | d :: l' => if matches q d then l' else d :: delete_first q l'
  end.

Definition updateOne (q : Filter) (u : update) : M unit :=
  fun st => (Ret tt, mkStore (update_first q u (docs st)) (next_id st)).

Definition deleteOne (q : Filter) : M unit :=
  fun st => (Ret tt, mkStore (delete_first q (docs st)) (next_id st)).

(** [createOne] inserts the document under a freshly generated ObjectId. *)
Definition createOne (it : option ObjectId) (o : ObjectId)
    (eds vws : list ObjectId) : M ObjectId :=
  fun st => let id := next_id st in
            (Ret id, mkStore (docs st ++ [mkDoc id it o eds vws]) (S id)).

(** ** JS array helpers *)

(** [findIndex (x => x === u)], [-1] when absent. *)
Fixpoint findIndex (u : ObjectId) (l : list ObjectId) : Z :=
  match l with
  | [] => (-1)%Z
  | x :: l' => if Nat.eqb x u then 0%Z
               else let i := findIndex u l' in
                    if (i <? 0)%Z then i else (i + 1)%Z
  end.

Fixpoint remove_nth {A} (n : nat) (l : list A) : list A :=
  match n, l with
  | _, [] => []
  | O, _ :: l' => l'
  | S n', x :: l' => x :: remove_nth n' l'
  end.

(** [l.slice(); l.splice(start, 1)]: a negative start counts from the end. *)
Definition splice1 {A} (l : list A) (start : Z) : list A :=
  let n := Z.of_nat (length l) in
  let s := if (start <? 0)%Z then Z.max (n + start) 0 else Z.min start n in
  remove_nth (Z.to_nat s) l.

(** ** src/server/concepts/accessList.ts *)

Module AccessListTs.

Definition addItem (o : ObjectId) (eds vws : option (list ObjectId)) : M Msg :=
  let eds := match eds with None => [] | Some l => l end in
  let vws := match vws with None => [] | Some l => l end in
  _id <- createOne None o eds vws ;;
  d <- readOne [Eq F_id _id] ;;
  ret (ItemAdded d).

Definition deleteItem (_id : ObjectId) : M Msg :=
  deleteOne [Eq F_id _id] ;;
  ret ItemDeleted.

Definition isOwner (user _id : ObjectId) : M unit :=
  it <- readOne [Eq F_id _id] ;;
  match it with
  | None => throw (NotFoundError _id)
  | Some it => if negb (Nat.eqb (owner it) user)
               then throw (ItemOwnerNotMatchError user _id) else ret tt
  end.

Definition isViewer (user _id : ObjectId) : M unit :=
  it <- readOne [Eq F_id _id] ;;
  match it with
  | None => throw (NotFoundError _id)
  | Some it => if negb (includes (viewers it) user)
               then throw (ItemViewerNotMatchError user _id) else ret tt
  end.

Definition isEditor (user _id : ObjectId) : M unit :=
  it <- readOne [Eq F_id _id] ;;
  match it with
  | None => throw (NotFoundError _id)
  | Some it => if negb (includes (editors it) user)
               then throw (ItemEditorNotMatchError user _id) else ret tt
  end.

Definition setToViewer (_id user : ObjectId) : M Msg :=
  catch (isViewer user _id ;; ret (AlreadyViewer user _id))
    (fun _ =>
       it <- readOne [Eq F_id _id] ;;
       match it with
       | None => throw (NotFoundError _id)
       | Some it =>
           updateOne [Eq F_id _id] (SetViewers (viewers it ++ [user])) ;;
           ret ViewersUpdated
       end).

Definition setToEditor (_id user : ObjectId) : M Msg :=
  catch (isEditor user _id ;; ret (AlreadyEditor user _id))
    (fun _ =>
       it <- readOne [Eq F_id _id] ;;
       match it with
       | None => throw (NotFoundError _id)
       | Some it =>
           updateOne [Eq F_id _id] (SetEditors (editors it ++ [user])) ;;
           ret EditorsUpdated
       end).

Definition removeAccess (_id user : ObjectId) : M Msg :=
  it <- readOne [Eq F_id _id; OrViewersEditors user] ;;
  match it with
  | None => ret (AlreadyRestricted user _id)
  | Some it =>
      let userViewerIndex := findIndex user (viewers it) in
      if negb (Z.eqb userViewerIndex (-1))
      then updateOne [Eq F_id _id] (SetViewers (splice1 (viewers it) userViewerIndex)) ;;
           ret ViewersUpdated
      else
        let userEditorIndex := findIndex user (editors it) in
        if negb (Z.eqb userEditorIndex (-1))
        then updateOne [Eq F_id _id] (SetEditors (splice1 (editors it) userEditorIndex)) ;;
             ret ViewersUpdated
        else ret Undefined
  end.

End AccessListTs.

(** ** src/unnamed/part_001 *)

Module AccessListItem.

(** [getItems] sorts by [dateUpdated]; the bulk operations below update each
    listed record independently, so the model keeps collection order. *)
Definition getItemsByOwner (o : ObjectId) : M (list ItemAccessDoc) :=
  readMany [Eq Fowner o].

Definition addItem (it : ObjectId) (o : ObjectId)
    (eds vws : option (list ObjectId)) : M Msg :=
  let eds := match eds with None => [] | Some l => l end in
  let vws := match vws with None => [] | Some l => l end in
  _id <- createOne (Some it) o eds vws ;;
  d <- readOne [Eq F_id _id] ;;
  ret (ItemAdded d).

Definition deleteItem (it : ObjectId) : M Msg :=
  deleteOne [Eq Fitem it] ;;
  ret ItemDeleted.

Fixpoint setToViewerAllItems_loop (user : ObjectId) (items : list ItemAccessDoc) : M unit :=
  match items with
  | [] => ret tt
  | it :: rest =>
      (if negb (existsb (Nat.eqb user) (viewers it))
       then updateOne [Eq F_id (_id it)] (SetViewers (viewers it ++ [user]))
       else ret tt) ;;
      setToViewerAllItems_loop user rest
  end.

Definition setToViewerAllItems (o user : ObjectId) : M Msg :=
  items <- getItemsByOwner o ;;
  setToViewerAllItems_loop user items ;;
  ret AllItemsUpdated.

(** [isViewer] and [isEditor] query [{ itemId }], i.e. [{ itemId: itemId }]. *)
Definition isOwner (user itemId : ObjectId) : M unit :=
  it <- readOne [Eq Fitem itemId] ;;
  match it with
  | None => throw (NotFoundError itemId)
  | Some it => if negb (Nat.eqb (owner it) user)
               then throw (ItemOwnerNotMatchError user itemId) else ret tt
  end.

Definition isViewer (user itemId : ObjectId) : M unit :=
  it <- readOne [Eq FitemId itemId] ;;
  match it with
  | None => throw (NotFoundError itemId)
  | Some it => if negb (includes (viewers it) user)
               then throw (ItemViewerNotMatchError user itemId) else ret tt
  end.

Definition isEditor (user itemId : ObjectId) : M unit :=
  it <- readOne [Eq FitemId itemId] ;;
  match it with
  | None => throw (NotFoundError itemId)
  | Some it => if negb (includes (editors it) user)
               then throw (ItemEditorNotMatchError user itemId) else ret tt
  end.

Definition setToViewer (_id user : ObjectId) : M Msg :=
  catch (isViewer user _id ;; ret (AlreadyViewer user _id))
    (fun _ =>
       it <- readOne [Eq F_id _id] ;;
       match it with
       | None => throw (NotFoundError _id)
       | Some it =>
           updateOne [Eq F_id _id] (SetViewers (viewers it ++ [user])) ;;
           ret ViewersUpdated
       end).

Definition setToEditor (_id user : ObjectId) : M Msg :=
  catch (isEditor user _id ;; ret (AlreadyEditor user _id))
    (fun _ =>
       it <- readOne [Eq F_id _id] ;;
       match it with
       | None => throw (NotFoundError _id)
       | Some it =>
           updateOne [Eq F_id _id] (SetEditors (editors it ++ [user])) ;;
           ret EditorsUpdated
       end).

(** The [for] loop of [removeAccessAllItems]: the [else] branch splices at
    [userEditorIndex] without testing it against [-1]. *)
Fixpoint removeAccessAllItems_loop (user : ObjectId) (items : list ItemAccessDoc) : M unit :=
  match items with
  | [] => ret tt
  | it :: rest =>
      (let userViewerIndex := findIndex user (viewers it) in
       if negb (Z.eqb userViewerIndex (-1))
       then updateOne [Eq F_id (_id it)] (SetViewers (splice1 (viewers it) userViewerIndex))
       else
         let userEditorIndex := findIndex user (editors it) in
         updateOne [Eq F_id (_id it)] (SetEditors (splice1 (editors it) userEditorIndex))) ;;
      removeAccessAllItems_loop user rest
  end.

Definition removeAccessAllItems (o user : ObjectId) : M Msg :=
  items <- readMany [Eq Fowner o; OrViewersEditors user] ;;
  removeAccessAllItems_loop user items ;;
  ret (AccessForUpdated user).

Definition removeAccess (itemId user : ObjectId) : M Msg :=
  it <- readOne [Eq FitemId itemId; OrViewersEditors user] ;;
  match it with
  | None => ret (AlreadyRestricted user itemId)
  | Some it =>
      let userViewerIndex := findIndex user (viewers it) in
      if negb (Z.eqb userViewerIndex (-1))
      then updateOne [Eq FitemId itemId] (SetViewers (splice1 (viewers it) userViewerIndex)) ;;
           ret ViewersUpdated
      else
        let userEditorIndex := findIndex user (editors it) in
        updateOne [Eq FitemId itemId] (SetEditors (splice1 (editors it) userEditorIndex)) ;;
        ret EditorsUpdated
  end.

Definition hasItemAccess (it : ItemAccessDoc) (user : ObjectId) : bool :=
  let isOwner := Nat.eqb (owner it) user in
  let isViewer := includes (viewers it) user in
  let isEditor := includes (editors it) user in
  isOwner || isViewer || isEditor.

Definition canView (user itemId : ObjectId) : M unit :=
  it <- readOne [Eq FitemId itemId] ;;
  match it with
  | None => throw (NotFoundError itemId)
  | Some it => if negb (hasItemAccess it user)
               then throw (AccessRestrictedError user itemId) else ret tt
  end.

End AccessListItem.

(** ** Interleaved executions of [setToViewer] (accessList.ts)

    Each [await] of [AccessListTs.setToViewer] is a point where another
    request may run against the shared collection.  A request is a thread
    whose program counter sits at one of those points. *)

Module Interleaving.

Inductive thread :=
  | SV_start (_id user : ObjectId)                      (* await this.isViewer(user, _id) *)
  | SV_catch (_id user : ObjectId)                      (* catch: await readOne({ _id }) *)
  | SV_write (_id user : ObjectId) (newViewers : list ObjectId)
                                                        (* await updateOne({ _id }, { viewers }) *)
  | SV_done (r : outcome Msg).

Definition step (t : thread) (st : store) : thread * store :=
  match t with
  | SV_start _id user =>
      match AccessListTs.isViewer user _id st with
      | (Ret _, st') => (SV_done (Ret (AlreadyViewer user _id)), st')
      | (Throw _, st') => (SV_catch _id user, st')
      end
  | SV_catch _id user =>
      match readOne [Eq F_id _id] st with
      | (Ret None, st') => (SV_done (Throw (NotFoundError _id)), st')
      | (Ret (Some it), st') => (SV_write _id user (viewers it ++ [user]), st')
      | (Throw e, st') => (SV_done (Throw e), st')
      end
  | SV_write _id user newViewers =>
      let '(_, st') := updateOne [Eq F_id _id] (SetViewers newViewers) st in
      (SV_done (Ret ViewersUpdated), st')
  | SV_done r => (SV_done r, st)
  end.

(** Two requests; [true] in the schedule steps the first, [false] the second. *)
Fixpoint run2 (sched : list bool) (t1 t2 : thread) (st : store)
    : thread * thread * store :=
  match sched with
  | [] => (t1, t2, st)
  | true :: s => let '(t1', st') := step t1 st in run2 s t1' t2 st'
  | false :: s => let '(t2', st') := step t2 st in run2 s t1 t2' st'
  end.

(** Both reads of each request before either write. *)
Definition racy_schedule : list bool := [true; false; true; false; true; false].

(** One request after the other. *)
Definition sequential_schedule : list bool := [true; true; true; false; false; false].

End Interleaving.

(** ** Operation sequences *)

(** Mutating operations of the two versions.  [setToViewer]/[setToEditor] of
    part_001 are listed separately in [role_op] below. *)
Inductive op :=
  | TsAddItem (o : ObjectId) (eds vws : option (list ObjectId))
  | TsDeleteItem (_id : ObjectId)
  | TsSetToViewer (_id user : ObjectId)
  | TsSetToEditor (_id user : ObjectId)
  | TsRemoveAccess (_id user : ObjectId)
  | ItemAddItem (it o : ObjectId) (eds vws : option (list ObjectId))
  | ItemDeleteItem (it : ObjectId)
  | ItemRemoveAccess (itemId user : ObjectId)
  | ItemSetToViewerAllItems (o user : ObjectId)
  | ItemRemoveAccessAllItems (o user : ObjectId).

Definition run_op (o : op) : M Msg :=
  match o with
  | TsAddItem o e v => AccessListTs.addItem o e v
  | TsDeleteItem i => AccessListTs.deleteItem i
  | TsSetToViewer i u => AccessListTs.setToViewer i u
  | TsSetToEditor i u => AccessListTs.setToEditor i u
  | TsRemoveAccess i u => AccessListTs.removeAccess i u
  | ItemAddItem it o e v => AccessListItem.addItem it o e v
  | ItemDeleteItem it => AccessListItem.deleteItem it
  | ItemRemoveAccess it u => AccessListItem.removeAccess it u
  | ItemSetToViewerAllItems o u => AccessListItem.setToViewerAllItems o u
  | ItemRemoveAccessAllItems o u => AccessListItem.removeAccessAllItems o u
  end.

(** Caller-supplied initial role lists carry no duplicate. *)
Definition op_args_nodup (o : op) : Prop :=
  match o with
  | TsAddItem _ e v | ItemAddItem _ _ e v =>
      (forall l, e = Some l -> NoDup l) /\ (forall l, v = Some l -> NoDup l)
  | _ => True
  end.

(** The role mutations of both versions. *)
Inductive role_op :=
  | RoleSetToViewer (_id user : ObjectId)
  | RoleSetToEditor (_id user : ObjectId)
  | RoleRemoveAccess (_id user : ObjectId)
  | RoleSetToViewerItem (_id user : ObjectId)
  | RoleSetToEditorItem (_id user : ObjectId)
  | RoleRemoveAccessItem (itemId user : ObjectId).

Definition run_role_op (o : role_op) : M Msg :=
  match o with
  | RoleSetToViewer i u => AccessListTs.setToViewer i u
  | RoleSetToEditor i u => AccessListTs.setToEditor i u
  | RoleRemoveAccess i u => AccessListTs.removeAccess i u
  | RoleSetToViewerItem i u => AccessListItem.setToViewer i u
  | RoleSetToEditorItem i u => AccessListItem.setToEditor i u
  | RoleRemoveAccessItem i u => AccessListItem.removeAccess i u
  end.

(** Run a sequence of operations; a thrown error ends that request only. *)
Fixpoint exec {O} (run : O -> M Msg) (os : list O) (st : store) : store :=
  match os with
  | [] => st
  | o :: os' => exec run os' (snd (run o st))
  end.

(** ** Observations *)

Definition lookup_id (st : store) (i : ObjectId) : option ItemAccessDoc :=
  find (fun d => Nat.eqb (_id d) i) (docs st).

Definition owners (st : store) : list (ObjectId * ObjectId) :=
  map (fun d => (_id d, owner d)) (docs st).

Definition doc_nodup (d : ItemAccessDoc) : Prop := NoDup (editors d) /\ NoDup (viewers d).

Definition roles_nodup (st : store) : Prop := Forall doc_nodup (docs st).

Definition update_nodup (u : update) : Prop :=
  match u with SetViewers l | SetEditors l => NoDup l end.

Definition ids_unique (st : store) : Prop := NoDup (map _id (docs st)).

(** An empty collection. *)
Definition empty_store : store := mkStore [] 0.

(** A collection built by part_001's [addItem] for item [10], owner [0],
    and user [5] holding both roles. *)
Definition item_store : store :=
  snd (AccessListItem.addItem 10 0 (Some [5]) (Some [5]) empty_store).

(** Every document id is below the id generator's counter. *)
Definition fresh_ids (st : store) : Prop :=
  Forall (fun d => _id d < next_id st) (docs st).

(** A computation relates every store to the store it leaves behind by [R]. *)
Definition preserves (R : store -> store -> Prop) {A} (m : M A) : Prop :=
  forall st, R st (snd (m st)).

Definition same_owners (st st' : store) : Prop := owners st' = owners st.

(** Effect of one iteration of [setToViewerAllItems] on its record. *)
Definition grant_viewer (user : ObjectId) (d : ItemAccessDoc) : ItemAccessDoc :=
  if negb (existsb (Nat.eqb user) (viewers d))
  then apply_update (SetViewers (viewers d ++ [user])) d else d.

(** The update one iteration of [removeAccessAllItems] writes. *)
Definition revoke_update (user : ObjectId) (d : ItemAccessDoc) : update :=
  let userViewerIndex := findIndex user (viewers d) in
  if negb (Z.eqb userViewerIndex (-1))
  then SetViewers (splice1 (viewers d) userViewerIndex)
  else SetEditors (splice1 (editors d) (findIndex user (editors d))).

(** The access-list part of the routes of src/unnamed/part_000 that call the
    bulk operations ([Friend] and [User] act on other collections). *)
Module Routes.

(** [acceptFriendRequest(session, from)] with [user] the session user. *)
Definition acceptFriendRequest_access (user fromId : ObjectId) : M unit :=
  AccessListItem.setToViewerAllItems fromId user ;;
  AccessListItem.setToViewerAllItems user fromId ;;
  ret tt.

(** [removeFriend(session, friend)] with [user] the session user. *)
Definition removeFriend_access (user friendId : ObjectId) : M unit :=
  AccessListItem.removeAccessAllItems friendId user ;;
  AccessListItem.removeAccessAllItems user friendId ;;
  ret tt.

End Routes.

(** A collection built by accessList.ts [addItem] for owner [0] with editor
    [5] and viewer [6]: its record has id [0]. *)
Definition ts_store : store :=
  snd (AccessListTs.addItem 0 (Some [5]) (Some [6]) empty_store).

(** [ts_store] with two more records, owned by [1] and [2] (ids [1] and [2]). *)
Definition ts_store3 : store :=
  snd (AccessListTs.addItem 2 None None (snd (AccessListTs.addItem 1 None (Some [6]) ts_store))).

(** A collection built by part_001's [addItem]: item [10] owned by [0], and
    item [11] owned by [1] with viewer [2]. *)
Definition bulk_store : store :=
  snd (AccessListItem.addItem 11 1 None (Some [2])
         (snd (AccessListItem.addItem 10 0 None None empty_store))).

(** ** Lemmas on the collection primitives *)

Lemma find_ext_eq {A} (f g : A -> bool) (l : list A) :
  (forall x, f x = g x) -> find f l = find g l.
Proof.
  intros Hfg; induction l as [|x l IH]; simpl; [reflexivity|].
  rewrite Hfg; destruct (g x); [reflexivity | exact IH].
Qed.

Lemma matches_id i d : matches [Eq F_id i] d = Nat.eqb (_id d) i.
Proof. unfold matches; simpl; apply andb_true_r. Qed.

Lemma find_id st i : find (matches [Eq F_id i]) (docs st) = lookup_id st i.
Proof. apply find_ext_eq, matches_id. Qed.

Lemma find_itemId_none v q l : find (matches (Eq FitemId v :: q)) l = None.
Proof. induction l as [|d l IH]; simpl; auto. Qed.

Lemma lookup_update_first i u l :
  find (fun d => Nat.eqb (_id d) i) (update_first [Eq F_id i] u l) =
  option_map (apply_update u) (find (fun d => Nat.eqb (_id d) i) l).
Proof.
  induction l as [|d l IH]; cbn [update_first find]; [reflexivity|].
  rewrite matches_id.
  destruct (Nat.eqb (_id d) i) eqn:E; cbn [find].
  - destruct u; simpl; rewrite E; reflexivity.
  - rewrite E; exact IH.
Qed.

Lemma update_first_nomatch q u l :
  find (matches q) l = None -> update_first q u l = l.
Proof.
  induction l as [|d l IH]; simpl; [reflexivity|].
  destruct (matches q d); [discriminate|].
  intros H; rewrite IH; auto.
Qed.

Lemma find_app {A} (f : A -> bool) l1 l2 :
  find f (l1 ++ l2) = match find f l1 with Some x => Some x | None => find f l2 end.
Proof.
  induction l1 as [|x l1 IH]; simpl; [reflexivity|].
  destruct (f x); [reflexivity | exact IH].
Qed.

Lemma find_some_split {A} (f : A -> bool) l x :
  find f l = Some x ->
  exists pre post, l = pre ++ x :: post /\ f x = true /\
                   Forall (fun y => f y = false) pre.
Proof.
  induction l as [|y l IH]; simpl; [discriminate|].
  destruct (f y) eqn:E.
  - intros H; injection H as <-. exists [], l; auto.
  - intros H; destruct (IH H) as (pre & post & -> & Hx & Hpre).
    exists (y :: pre), post; simpl; auto.
Qed.

(** The first document with a given id, with or without a further clause. *)
Lemma update_first_split q u pre d post :
  Forall (fun y => matches q y = false) pre -> matches q d = true ->
  update_first q u (pre ++ d :: post) = pre ++ apply_update u d :: post.
Proof.
  intros Hpre Hd; induction Hpre as [|y pre Hy Hpre IH]; simpl.
  - rewrite Hd; reflexivity.
  - rewrite Hy, IH; reflexivity.
Qed.

Lemma find_split_prefix q pre d post :
  Forall (fun y => matches q y = false) pre -> matches q d = true ->
  find (matches q) (pre ++ d :: post) = Some d.
Proof.
  intros Hpre Hd; induction Hpre as [|y pre Hy Hpre IH]; simpl.
  - rewrite Hd; reflexivity.
  - rewrite Hy; exact IH.
Qed.

Lemma matches_id_cons i c d :
  matches (Eq F_id i :: c) d = Nat.eqb (_id d) i && matches c d.
Proof. reflexivity. Qed.

Lemma includes_In l u : includes l u = true <-> In u l.
Proof.
  unfold includes; rewrite existsb_exists; split.
  - intros (x & Hx & E); apply Nat.eqb_eq in E; subst; exact Hx.
  - intros H; exists u; split; [exact H | apply Nat.eqb_refl].
Qed.

Lemma includes_false_not_In l u : includes l u = false <-> ~ In u l.
Proof.
  rewrite <- includes_In; destruct (includes l u); split; congruence.
Qed.

Lemma findIndex_not_In u l : ~ In u l -> findIndex u l = (-1)%Z.
Proof.
  induction l as [|x l IH]; simpl; [reflexivity|].
  intros H; destruct (Nat.eqb x u) eqn:E.
  - apply Nat.eqb_eq in E; subst; tauto.
  - rewrite IH by tauto; reflexivity.
Qed.

Lemma findIndex_app_last u l : ~ In u l -> findIndex u (l ++ [u]) = Z.of_nat (length l).
Proof.
  induction l as [|x l IH]; simpl.
  - rewrite Nat.eqb_refl; reflexivity.
  - intros H; destruct (Nat.eqb x u) eqn:E.
    + apply Nat.eqb_eq in E; subst; tauto.
    + rewrite IH by tauto.
      destruct (Z.ltb_spec (Z.of_nat (length l)) 0); lia.
Qed.

Lemma remove_nth_app_last {A} (l : list A) x : remove_nth (length l) (l ++ [x]) = l.
Proof. induction l as [|y l IH]; simpl; [reflexivity | rewrite IH; reflexivity]. Qed.

Lemma splice1_app_last {A} (l : list A) x :
  splice1 (l ++ [x]) (Z.of_nat (length l)) = l.
Proof.
  unfold splice1; rewrite length_app; simpl.
  destruct (Z.ltb_spec (Z.of_nat (length l)) 0); [lia|].
  rewrite Z.min_l by lia; rewrite Nat2Z.id; apply remove_nth_app_last.
Qed.

(** ** The [_id]-keyed registry, operation by operation *)

Module TsSpec.
Import AccessListTs.

Ltac unfold_m := cbv [bind catch ret throw readOne updateOne deleteOne createOne].

Lemma isOwner_spec user i st :
  isOwner user i st =
  (match lookup_id st i with
   | None => Throw (NotFoundError i)
   | Some d => if Nat.eqb (owner d) user then Ret tt
               else Throw (ItemOwnerNotMatchError user i)
   end, st).
Proof.
  unfold isOwner; unfold_m; rewrite find_id.
  destruct (lookup_id st i) as [d|]; [destruct (Nat.eqb (owner d) user)|]; reflexivity.
Qed.

Lemma isViewer_spec user i st :
  isViewer user i st =
  (match lookup_id st i with
   | None => Throw (NotFoundError i)
   | Some d => if includes (viewers d) user then Ret tt
               else Throw (ItemViewerNotMatchError user i)
   end, st).
Proof.
  unfold isViewer; unfold_m; rewrite find_id.
  destruct (lookup_id st i) as [d|]; [destruct (includes (viewers d) user)|]; reflexivity.
Qed.

Lemma isEditor_spec user i st :
  isEditor user i st =
  (match lookup_id st i with
   | None => Throw (NotFoundError i)
   | Some d => if includes (editors d) user then Ret tt
               else Throw (ItemEditorNotMatchError user i)
   end, st).
Proof.
  unfold isEditor; unfold_m; rewrite find_id.
  destruct (lookup_id st i) as [d|]; [destruct (includes (editors d) user)|]; reflexivity.
Qed.

Lemma setToViewer_spec i u st :
  setToViewer i u st =
  match lookup_id st i with
  | None => (Throw (NotFoundError i), st)
  | Some d =>
      if includes (viewers d) u then (Ret (AlreadyViewer u i), st)
      else (Ret ViewersUpdated,
            mkStore (update_first [Eq F_id i] (SetViewers (viewers d ++ [u])) (docs st))
                    (next_id st))
  end.
Proof.
  unfold setToViewer; cbv [catch bind ret]; rewrite isViewer_spec.
  destruct (lookup_id st i) as [d|] eqn:E; [destruct (includes (viewers d) u)|];
    unfold_m; rewrite ?find_id, ?E; reflexivity.
Qed.

Lemma setToEditor_spec i u st :
  setToEditor i u st =
  match lookup_id st i with
  | None => (Throw (NotFoundError i), st)
  | Some d =>
      if includes (editors d) u then (Ret (AlreadyEditor u i), st)
      else (Ret EditorsUpdated,
            mkStore (update_first [Eq F_id i] (SetEditors (editors d ++ [u])) (docs st))
                    (next_id st))
  end.
Proof.
  unfold setToEditor; cbv [catch bind ret]; rewrite isEditor_spec.
  destruct (lookup_id st i) as [d|] eqn:E; [destruct (includes (editors d) u)|];
    unfold_m; rewrite ?find_id, ?E; reflexivity.
Qed.

Lemma deleteItem_spec i st :
  deleteItem i st = (Ret ItemDeleted, mkStore (delete_first [Eq F_id i] (docs st)) (next_id st)).
Proof. reflexivity. Qed.

Lemma lookup_fresh_none st :
  fresh_ids st -> find (matches [Eq F_id (next_id st)]) (docs st) = None.
Proof.
  intros Hf; induction Hf as [|d l Hd Hf IH]; cbn [find]; [reflexivity|].
  rewrite matches_id; destruct (Nat.eqb_spec (_id d) (next_id st)); [lia | exact IH].
Qed.

Lemma addItem_spec o e v st :
  fresh_ids st ->
  addItem o e v st =
  let d := mkDoc (next_id st) None o (match e with None => [] | Some l => l end)
                 (match v with None => [] | Some l => l end) in
  (Ret (ItemAdded (Some d)), mkStore (docs st ++ [d]) (S (next_id st))).
Proof.
  intros Hf; unfold addItem; unfold_m; cbn [docs next_id].
  rewrite find_app, lookup_fresh_none by exact Hf.
  cbn; rewrite Nat.eqb_refl; reflexivity.
Qed.

Lemma find_none_not_in i l :
  ~ In i (map _id l) -> find (fun d => Nat.eqb (_id d) i) l = None.
Proof.
  induction l as [|d l IH]; cbn [find map In]; [reflexivity|].
  intros H; destruct (Nat.eqb_spec (_id d) i); [tauto | apply IH; tauto].
Qed.

Lemma find_unique_id l x :
  NoDup (map _id l) -> In x l -> find (fun d => Nat.eqb (_id d) (_id x)) l = Some x.
Proof.
  induction l as [|d l IH]; cbn [find map In]; [tauto|].
  intros Hnd Hin; apply NoDup_cons_iff in Hnd as [Hd Hnd].
  destruct Hin as [<-|Hin]; [rewrite Nat.eqb_refl; reflexivity|].
  destruct (Nat.eqb_spec (_id d) (_id x)) as [E|E]; [|auto].
  exfalso; apply Hd; rewrite E; apply in_map; exact Hin.
Qed.

Lemma delete_first_unique i l :
  NoDup (map _id l) -> find (fun d => Nat.eqb (_id d) i) (delete_first [Eq F_id i] l) = None.
Proof.
  induction l as [|d l IH]; cbn [delete_first map]; [reflexivity|].
  intros Hnd; apply NoDup_cons_iff in Hnd as [Hd Hnd].
  rewrite matches_id; destruct (Nat.eqb_spec (_id d) i) as [<-|E].
  - apply find_none_not_in; exact Hd.
  - cbn [find]; destruct (Nat.eqb_spec (_id d) i); [contradiction | auto].
Qed.

Lemma delete_first_nomatch q l :
  find (matches q) l = None -> delete_first q l = l.
Proof.
  induction l as [|d l IH]; cbn [find delete_first]; [reflexivity|].
  destruct (matches q d); [discriminate|].
  intros H; rewrite IH; auto.
Qed.

End TsSpec.

(** ** Frame reasoning *)

Section Preserves.
Variable R : store -> store -> Prop.
Hypothesis R_refl : forall st, R st st.
Hypothesis R_trans : forall a b c, R a b -> R b c -> R a c.

Lemma ret_pres {A} (a : A) : preserves R (ret a).
Proof. intros st; apply R_refl. Qed.

Lemma throw_pres {A} e : preserves R (@throw A e).
Proof. intros st; apply R_refl. Qed.

Lemma readOne_pres q : preserves R (readOne q).
Proof. intros st; apply R_refl. Qed.

Lemma readMany_pres q : preserves R (readMany q).
Proof. intros st; apply R_refl. Qed.

Lemma bind_pres {A B} (m : M A) (k : A -> M B) :
  preserves R m -> (forall a, preserves R (k a)) -> preserves R (bind m k).
Proof.
  intros Hm Hk st; unfold bind.
  specialize (Hm st); destruct (m st) as [[a|e] st']; simpl in *;
    [eapply R_trans; [exact Hm | apply Hk] | exact Hm].
Qed.

Lemma catch_pres {A} (m : M A) h :
  preserves R m -> (forall e, preserves R (h e)) -> preserves R (catch m h).
Proof.
  intros Hm Hh st; unfold catch.
  specialize (Hm st); destruct (m st) as [[a|e] st']; simpl in *;
    [exact Hm | eapply R_trans; [exact Hm | apply Hh]].
Qed.

End Preserves.

Lemma same_owners_refl st : same_owners st st.
Proof. reflexivity. Qed.

Lemma same_owners_trans a b c : same_owners a b -> same_owners b c -> same_owners a c.
Proof. unfold same_owners; congruence. Qed.

Lemma update_first_owners q u l :
  map (fun d => (_id d, owner d)) (update_first q u l) = map (fun d => (_id d, owner d)) l.
Proof.
  induction l as [|d l IH]; cbn [update_first]; [reflexivity|].
  destruct (matches q d); cbn [map]; [destruct u; reflexivity | rewrite IH; reflexivity].
Qed.

Lemma updateOne_owners q u : preserves same_owners (updateOne q u).
Proof. intros st; unfold same_owners, owners; simpl; apply update_first_owners. Qed.

Ltac owners_solve :=
  repeat match goal with
  | |- preserves _ (bind _ _) => apply bind_pres; [exact same_owners_trans| |]
  | |- preserves _ (catch _ _) => apply catch_pres; [exact same_owners_trans| |]
  | |- preserves _ (ret _) => apply ret_pres, same_owners_refl
  | |- preserves _ (throw _) => apply throw_pres, same_owners_refl
  | |- preserves _ (readOne _) => apply readOne_pres, same_owners_refl
  | |- preserves _ (updateOne _ _) => apply updateOne_owners
  | |- forall _, _ => intro
  | |- preserves _ (match ?x with _ => _ end) => destruct x
  | |- preserves _ (if ?x then _ else _) => destruct x
  | |- preserves _ (let _ := _ in _) => cbv zeta
  end.

Lemma run_role_op_owners o : preserves same_owners (run_role_op o).
Proof.
  destruct o; cbn [run_role_op];
    unfold AccessListTs.setToViewer, AccessListTs.setToEditor, AccessListTs.removeAccess,
      AccessListTs.isViewer, AccessListTs.isEditor,
      AccessListItem.setToViewer, AccessListItem.setToEditor, AccessListItem.removeAccess,
      AccessListItem.isViewer, AccessListItem.isEditor;
    owners_solve.
Qed.

(** ** Duplicate-free role lists *)

Lemma NoDup_app_last (l : list ObjectId) u : NoDup l -> ~ In u l -> NoDup (l ++ [u]).
Proof.
  induction l as [|x l IH]; simpl.
  - intros; constructor; [tauto | constructor].
  - intros Hnd Hu; apply NoDup_cons_iff in Hnd as [Hx Hnd].
    constructor; [|apply IH; tauto].
    rewrite in_app_iff; simpl; intros [H|[H|H]]; [tauto | subst; tauto | tauto].
Qed.

Lemma NoDup_remove_nth {A} n (l : list A) : NoDup l -> NoDup (remove_nth n l).
Proof.
  revert n; induction l as [|x l IH]; intros n Hnd; destruct n; simpl; auto;
    apply NoDup_cons_iff in Hnd as [Hx Hnd]; auto.
  constructor; [|auto].
  intros Hin; apply Hx; clear -Hin; revert n Hin; induction l; intros [|n]; simpl; tauto || firstorder.
Qed.

Lemma NoDup_splice1 {A} (l : list A) z : NoDup l -> NoDup (splice1 l z).
Proof. apply NoDup_remove_nth. Qed.

Lemma update_first_nodup q u l :
  update_nodup u -> Forall doc_nodup l -> Forall doc_nodup (update_first q u l).
Proof.
  intros Hu; induction 1 as [|d l Hd Hl IH]; cbn [update_first]; [constructor|].
  destruct (matches q d); constructor; auto.
  destruct u, Hd; split; simpl in *; auto.
Qed.

Lemma delete_first_nodup q l : Forall doc_nodup l -> Forall doc_nodup (delete_first q l).
Proof.
  induction 1 as [|d l Hd Hl IH]; cbn [delete_first]; [constructor|].
  destruct (matches q d); auto.
Qed.

Lemma find_nodup q l d : Forall doc_nodup l -> find q l = Some d -> doc_nodup d.
Proof.
  intros Hl Hf; apply find_some in Hf as [Hin _].
  rewrite Forall_forall in Hl; auto.
Qed.

(** ** Queries of part_001 on the field [itemId] *)

Lemma hasItemAccess_union it user :
  AccessListItem.hasItemAccess it user = true <->
  owner it = user \/ In user (viewers it) \/ In user (editors it).
Proof.
  unfold AccessListItem.hasItemAccess.
  rewrite !orb_true_iff, Nat.eqb_eq, !includes_In; tauto.
Qed.

(** The [_id]-keyed [setToViewer]: a second call finds the user and changes nothing. *)
Lemma setToViewer_ts_idempotent st i u :
  let st1 := snd (AccessListTs.setToViewer i u st) in
  AccessListTs.setToViewer i u st1 =
  (match lookup_id st i with
   | None => Throw (NotFoundError i)
   | Some _ => Ret (AlreadyViewer u i)
   end, st1).
Proof.
  cbv zeta; rewrite (TsSpec.setToViewer_spec i u st).
  destruct (lookup_id st i) as [d|] eqn:E.
  - destruct (includes (viewers d) u) eqn:Hin; simpl snd.
    + rewrite TsSpec.setToViewer_spec, E, Hin; reflexivity.
    + rewrite TsSpec.setToViewer_spec; unfold lookup_id at 1; simpl docs.
      rewrite lookup_update_first; fold (lookup_id st i); rewrite E; simpl.
      replace (includes (viewers d ++ [u]) u) with true; [reflexivity|].
      symmetry; apply includes_In, in_or_app; simpl; tauto.
  - simpl snd; rewrite TsSpec.setToViewer_spec, E; reflexivity.
Qed.

(** C1 (code_bug). [canView] of part_001 looks the record up with
    [{ itemId }], a field no access document has: it fails with [NotFound]
    on every input, although the record for item [10] exists and
    [hasItemAccess] grants user [5] access to it. *)
Theorem canView_item_never_finds_record :
  (forall user itemId st,
     AccessListItem.canView user itemId st = (Throw (NotFoundError itemId), st)) /\
  (exists d, find (matches [Eq Fitem 10]) (docs item_store) = Some d /\
             AccessListItem.hasItemAccess d 5 = true /\
             AccessListItem.hasItemAccess d 0 = true).
Proof.
  split.
  - intros user itemId st; unfold AccessListItem.canView; unfold bind, readOne.
    rewrite find_itemId_none; reflexivity.
  - eexists; split; [vm_compute; reflexivity | split; vm_compute; reflexivity].
Qed.

(** C2 (code_bug). [setToViewer] of part_001 guards the append with
    [isViewer], which never finds the record ([{ itemId }]); the catch branch
    then appends unconditionally: two calls give [viewers = [5; 5]] and the
    second reports an update.  The [_id]-keyed version reports "already a
    viewer" and keeps [[5]]. *)
Theorem setToViewer_item_not_idempotent :
  let st0 := snd (AccessListItem.addItem 10 0 None None empty_store) in
  let st1 := snd (AccessListItem.setToViewer 0 5 st0) in
  fst (AccessListItem.setToViewer 0 5 st1) = Ret ViewersUpdated /\
  option_map viewers (lookup_id st1 0) = Some [5] /\
  option_map viewers (lookup_id (snd (AccessListItem.setToViewer 0 5 st1)) 0) = Some [5; 5] /\
  let ts0 := snd (AccessListTs.addItem 0 None None empty_store) in
  let ts1 := snd (AccessListTs.setToViewer 0 5 ts0) in
  fst (AccessListTs.setToViewer 0 5 ts1) = Ret (AlreadyViewer 5 0) /\
  option_map viewers (lookup_id (snd (AccessListTs.setToViewer 0 5 ts1)) 0) = Some [5].
Proof. vm_compute; repeat split. Qed.

(** C4 (code_bug). The strict [isViewer] and [isEditor] of part_001 query
    [{ itemId }] and fail with [NotFound] on every input, also for the record
    of item [10] in which user [5] is both viewer and editor; [isOwner],
    which queries [{ item: itemId }], finds that record. *)
Theorem isViewer_isEditor_item_never_find_record :
  (forall user itemId st,
     AccessListItem.isViewer user itemId st = (Throw (NotFoundError itemId), st) /\
     AccessListItem.isEditor user itemId st = (Throw (NotFoundError itemId), st)) /\
  (exists d, find (matches [Eq Fitem 10]) (docs item_store) = Some d /\
             In 5 (viewers d) /\ In 5 (editors d)) /\
  fst (AccessListItem.isOwner 0 10 item_store) = Ret tt.
Proof.
  split; [|split].
  - intros user itemId st; unfold AccessListItem.isViewer, AccessListItem.isEditor;
      unfold bind, readOne; rewrite find_itemId_none; split; reflexivity.
  - eexists; split; [vm_compute; reflexivity | simpl; tauto].
  - vm_compute; reflexivity.
Qed.

(** C10 (code_bug). [removeAccess] of part_001 reads [{ itemId, $or: ... }]
    and never finds the record: it reports "already restricted" and leaves
    the collection as it is, also when the user is viewer and editor. *)
Theorem removeAccess_item_never_removes :
  (forall itemId user st,
     AccessListItem.removeAccess itemId user st = (Ret (AlreadyRestricted user itemId), st)) /\
  (exists d, find (matches [Eq Fitem 10]) (docs item_store) = Some d /\
             In 5 (viewers d) /\ In 5 (editors d)).
Proof.
  split.
  - intros itemId user st; unfold AccessListItem.removeAccess; unfold bind, readOne, ret.
    rewrite find_itemId_none; reflexivity.
  - eexists; split; [vm_compute; reflexivity | simpl; tauto].
Qed.

(** C5. Right after [addItem] with owner [u] creates record [i] (its [_id]),
    [isOwner(u, i)] succeeds and [isOwner(v, i)] fails with the owner
    mismatch error for every [v <> u]. *)
Theorem addItem_then_isOwner st u eds vws :
  fresh_ids st ->
  exists d,
    fst (AccessListTs.addItem u eds vws st) = Ret (ItemAdded (Some d)) /\
    let st' := snd (AccessListTs.addItem u eds vws st) in
    fst (AccessListTs.isOwner u (_id d) st') = Ret tt /\
    forall v, v <> u ->
      fst (AccessListTs.isOwner v (_id d) st') = Throw (ItemOwnerNotMatchError v (_id d)).
Proof.
  intros Hf; rewrite (TsSpec.addItem_spec u eds vws st Hf).
  eexists; split; [reflexivity|]; cbv zeta; cbn [fst snd _id].
  assert (Hl : lookup_id (mkStore (docs st ++ [mkDoc (next_id st) None u
                 (match eds with None => [] | Some l => l end)
                 (match vws with None => [] | Some l => l end)]) (S (next_id st)))
                 (next_id st) =
               Some (mkDoc (next_id st) None u
                 (match eds with None => [] | Some l => l end)
                 (match vws with None => [] | Some l => l end))).
  { unfold lookup_id; simpl docs; rewrite find_app.
    rewrite <- (find_ext_eq _ _ _ (fun d => matches_id (next_id st) d)).
    rewrite (TsSpec.lookup_fresh_none st Hf); simpl; rewrite Nat.eqb_refl; reflexivity. }
  split.
  - rewrite TsSpec.isOwner_spec, Hl; simpl; rewrite Nat.eqb_refl; reflexivity.
  - intros v Hv; rewrite TsSpec.isOwner_spec, Hl; simpl.
    destruct (Nat.eqb_spec u v); [congruence | reflexivity].
Qed.

(** C8. [setToViewer], [setToEditor] and [removeAccess] (of both versions)
    leave the [(_id, owner)] pairs of the collection unchanged, one
    operation at a time and over any sequence of them. *)
Theorem role_ops_keep_owner :
  (forall o st, owners (snd (run_role_op o st)) = owners st) /\
  (forall os st, owners (exec run_role_op os st) = owners st).
Proof.
  assert (H1 : forall o st, owners (snd (run_role_op o st)) = owners st)
    by (intros o st; apply (run_role_op_owners o st)).
  split; [exact H1|].
  induction os as [|o os IH]; intros st; simpl; [reflexivity|].
  rewrite IH; apply H1.
Qed.

(** C9. With unique record ids: [deleteItem] of an absent id returns
    "Item deleted successfully!" and changes nothing; [removeAccess] for a
    user in neither role list returns "already restricted" and changes
    nothing; after [deleteItem(i)], [isOwner] on [i] fails with [NotFound]. *)
Theorem absent_target_noops st i u :
  ids_unique st ->
  (lookup_id st i = None -> AccessListTs.deleteItem i st = (Ret ItemDeleted, st)) /\
  ((forall d, lookup_id st i = Some d -> ~ In u (viewers d) /\ ~ In u (editors d)) ->
   AccessListTs.removeAccess i u st = (Ret (AlreadyRestricted u i), st)) /\
  (forall v, fst (AccessListTs.isOwner v i (snd (AccessListTs.deleteItem i st))) =
             Throw (NotFoundError i)).
Proof.
  intros Hu; split; [|split].
  - intros Hn; rewrite TsSpec.deleteItem_spec, TsSpec.delete_first_nomatch.
    + destruct st; reflexivity.
    + rewrite find_id; exact Hn.
  - intros Hroles.
    assert (Hn : find (matches [Eq F_id i; OrViewersEditors u]) (docs st) = None).
    { destruct (find (matches [Eq F_id i; OrViewersEditors u]) (docs st)) as [x|] eqn:E;
        [exfalso|reflexivity].
      apply find_some in E as [Hin Hm].
      rewrite matches_id_cons in Hm; apply andb_true_iff in Hm as [Hid Hm].
      apply Nat.eqb_eq in Hid; subst i.
      destruct (Hroles x) as [Hv He]; [apply TsSpec.find_unique_id; assumption|].
      unfold matches in Hm; simpl in Hm; rewrite andb_true_r in Hm.
      apply orb_true_iff in Hm as [Hm|Hm]; apply includes_In in Hm; tauto. }
    unfold AccessListTs.removeAccess; unfold bind, readOne, ret; rewrite Hn; reflexivity.
  - intros v; rewrite TsSpec.deleteItem_spec; simpl snd.
    rewrite TsSpec.isOwner_spec; unfold lookup_id; simpl docs.
    rewrite TsSpec.delete_first_unique by exact Hu; reflexivity.
Qed.

(** ** Role round trip of accessList.ts *)

Lemma pre_not_id i c pre :
  Forall (fun y => Nat.eqb (_id y) i = false) pre ->
  Forall (fun y => matches (Eq F_id i :: c) y = false) pre.
Proof.
  apply Forall_impl; intros y Hy; rewrite matches_id_cons, Hy; reflexivity.
Qed.

(** ** Duplicate-free role lists under the operations *)

Lemma setToViewerAllItems_loop_nodup user items :
  Forall doc_nodup items ->
  forall st, roles_nodup st ->
  roles_nodup (snd (AccessListItem.setToViewerAllItems_loop user items st)).
Proof.
  induction 1 as [|it items Hit Hitems IH]; intros st Hst;
    cbn [AccessListItem.setToViewerAllItems_loop]; unfold bind; [exact Hst|].
  destruct (negb (existsb (Nat.eqb user) (viewers it))) eqn:E;
    unfold updateOne, ret; apply IH; [|exact Hst].
  apply update_first_nodup; [|exact Hst].
  apply negb_true_iff in E; change (includes (viewers it) user = false) in E.
  apply NoDup_app_last; [apply Hit | apply includes_false_not_In, E].
Qed.

Lemma removeAccessAllItems_loop_nodup user items :
  Forall doc_nodup items ->
  forall st, roles_nodup st ->
  roles_nodup (snd (AccessListItem.removeAccessAllItems_loop user items st)).
Proof.
  induction 1 as [|it items Hit Hitems IH]; intros st Hst;
    cbn [AccessListItem.removeAccessAllItems_loop]; unfold bind; [exact Hst|].
  cbv zeta; destruct (negb (Z.eqb (findIndex user (viewers it)) (-1)));
    unfold updateOne; apply IH; apply update_first_nodup; try exact Hst;
    apply NoDup_splice1, Hit.
Qed.

Lemma filter_nodup q st : roles_nodup st -> Forall doc_nodup (filter (matches q) (docs st)).
Proof.
  unfold roles_nodup; rewrite !Forall_forall; intros H x Hx.
  apply filter_In in Hx as [Hx _]; auto.
Qed.

Lemma addItem_lists_nodup (e v : option (list ObjectId)) :
  (forall l, e = Some l -> NoDup l) -> (forall l, v = Some l -> NoDup l) ->
  NoDup (match e with None => [] | Some l => l end) /\
  NoDup (match v with None => [] | Some l => l end).
Proof.
  intros He Hv; split; [destruct e | destruct v]; auto using NoDup_nil.
Qed.

(** C7 (amended). From a collection whose role lists are duplicate-free,
    every operation keeps them so, provided the lists handed to [addItem]
    are duplicate-free themselves: [addItem], [deleteItem], [setToViewer],
    [setToEditor], [removeAccess] of accessList.ts, and [addItem],
    [deleteItem], [removeAccess], [setToViewerAllItems],
    [removeAccessAllItems] of part_001. *)
Theorem ops_keep_roles_nodup o st :
  roles_nodup st -> op_args_nodup o -> roles_nodup (snd (run_op o st)).
Proof.
  intros Hst Hargs; destruct o; cbn [run_op op_args_nodup] in *.
  - unfold AccessListTs.addItem; unfold bind, createOne, readOne, ret; cbn [snd docs].
    apply Forall_app; split; [exact Hst|].
    destruct Hargs as [He Hv]; destruct (addItem_lists_nodup eds vws He Hv).
    repeat constructor; assumption.
  - rewrite TsSpec.deleteItem_spec; apply delete_first_nodup, Hst.
  - rewrite TsSpec.setToViewer_spec.
    destruct (lookup_id st _id0) as [d|] eqn:E; [|exact Hst].
    destruct (includes (viewers d) user) eqn:Hin; [exact Hst|].
    apply update_first_nodup; [|exact Hst].
    apply NoDup_app_last; [apply (find_nodup _ _ _ Hst E) | apply includes_false_not_In, Hin].
  - rewrite TsSpec.setToEditor_spec.
    destruct (lookup_id st _id0) as [d|] eqn:E; [|exact Hst].
    destruct (includes (editors d) user) eqn:Hin; [exact Hst|].
    apply update_first_nodup; [|exact Hst].
    apply NoDup_app_last; [apply (find_nodup _ _ _ Hst E) | apply includes_false_not_In, Hin].
  - unfold AccessListTs.removeAccess; unfold bind, readOne, ret, updateOne.
    destruct (find (matches [Eq F_id _id0; OrViewersEditors user]) (docs st)) as [d|] eqn:E;
      [|exact Hst].
    pose proof (find_nodup _ _ _ Hst E) as [Hde Hdv].
    cbv zeta; destruct (negb (Z.eqb (findIndex user (viewers d)) (-1)));
      [|destruct (negb (Z.eqb (findIndex user (editors d)) (-1)))];
      cbn [snd]; try exact Hst;
      apply update_first_nodup; try exact Hst; apply NoDup_splice1; assumption.
  - unfold AccessListItem.addItem; unfold bind, createOne, readOne, ret; cbn [snd docs].
    apply Forall_app; split; [exact Hst|].
    destruct Hargs as [He Hv]; destruct (addItem_lists_nodup eds vws He Hv).
    repeat constructor; assumption.
  - unfold AccessListItem.deleteItem; unfold bind, deleteOne, ret; cbn [snd docs].
    apply delete_first_nodup, Hst.
  - unfold AccessListItem.removeAccess; unfold bind, readOne, ret.
    rewrite find_itemId_none; exact Hst.
  - unfold AccessListItem.setToViewerAllItems, AccessListItem.getItemsByOwner.
    unfold bind at 1, readMany; unfold bind.
    pose proof (setToViewerAllItems_loop_nodup user _ (filter_nodup [Eq Fowner o] st Hst) st Hst).
    destruct (AccessListItem.setToViewerAllItems_loop user _ st) as [[a|e] st']; exact H.
  - unfold AccessListItem.removeAccessAllItems.
    unfold bind at 1, readMany; unfold bind.
    pose proof (removeAccessAllItems_loop_nodup user _
                  (filter_nodup [Eq Fowner o; OrViewersEditors user] st Hst) st Hst).
    destruct (AccessListItem.removeAccessAllItems_loop user _ st) as [[a|e] st']; exact H.
Qed.

(** C6 (counterexample). User [5] is a viewer, not an editor, of record [0];
    [setToEditor] then [removeAccess] removes the viewer entry (viewers are
    searched first) and leaves the new editor entry: the role lists are not
    those from before the grant. *)
Lemma setToEditor_removeAccess_viewer_counterexample :
  let st0 := snd (AccessListTs.addItem 0 None (Some [5]) empty_store) in
  lookup_id st0 0 = Some (mkDoc 0 None 0 [] [5]) /\
  lookup_id (snd (AccessListTs.removeAccess 0 5 (snd (AccessListTs.setToEditor 0 5 st0)))) 0 =
    Some (mkDoc 0 None 0 [5] []).
Proof. vm_compute; split; reflexivity. Qed.

(** C7 (counterexample). [addItem] stores the caller's lists as given: from
    the empty collection, [addItem(0, [5; 5])] yields a record whose
    [editors] repeat user [5]. *)
Lemma addItem_duplicate_editors_counterexample :
  roles_nodup empty_store /\
  ~ roles_nodup (snd (run_op (TsAddItem 0 (Some [5; 5]) None) empty_store)).
Proof.
  split; [constructor|].
  vm_compute; intros H; inversion H as [|d l [Hn _] _ Hd].
  apply NoDup_cons_iff in Hn as [Hn _]; apply Hn; simpl; tauto.
Qed.

(** ** Interleaved [setToViewer] requests *)

Module InterleavingSpec.
Import Interleaving.

Lemma run2_true s t1 t2 st t1' st' :
  step t1 st = (t1', st') -> run2 (true :: s) t1 t2 st = run2 s t1' t2 st'.
Proof. intros H; simpl; rewrite H; reflexivity. Qed.

Lemma run2_false s t1 t2 st t2' st' :
  step t2 st = (t2', st') -> run2 (false :: s) t1 t2 st = run2 s t1 t2' st'.
Proof. intros H; simpl; rewrite H; reflexivity. Qed.

Lemma step_start_absent i u st d :
  lookup_id st i = Some d -> includes (viewers d) u = false ->
  step (SV_start i u) st = (SV_catch i u, st).
Proof. intros E H; simpl; rewrite TsSpec.isViewer_spec, E, H; reflexivity. Qed.

Lemma step_catch i u st d :
  lookup_id st i = Some d -> step (SV_catch i u) st = (SV_write i u (viewers d ++ [u]), st).
Proof. intros E; simpl; unfold readOne; rewrite find_id, E; reflexivity. Qed.

Lemma step_write i u nv st :
  step (SV_write i u nv) st =
  (SV_done (Ret ViewersUpdated),
   mkStore (update_first [Eq F_id i] (SetViewers nv) (docs st)) (next_id st)).
Proof. reflexivity. Qed.

Lemma lookup_after_write i nv st d :
  lookup_id st i = Some d ->
  lookup_id (mkStore (update_first [Eq F_id i] (SetViewers nv) (docs st)) (next_id st)) i =
  Some (apply_update (SetViewers nv) d).
Proof.
  intros E; unfold lookup_id; simpl docs; rewrite lookup_update_first.
  fold (lookup_id st i); rewrite E; reflexivity.
Qed.

(** Run alone, a request's three steps do what [setToViewer] does. *)
Lemma steps_alone_setToViewer i u st :
  let '(t, _, st') := run2 [true; true; true] (SV_start i u) (SV_done (Ret Undefined)) st in
  (t, st') = (SV_done (fst (AccessListTs.setToViewer i u st)),
              snd (AccessListTs.setToViewer i u st)).
Proof.
  rewrite TsSpec.setToViewer_spec; simpl; rewrite TsSpec.isViewer_spec.
  destruct (lookup_id st i) as [d|] eqn:E.
  - destruct (includes (viewers d) u); simpl; [reflexivity|].
    unfold readOne; rewrite find_id, E; reflexivity.
  - simpl; unfold readOne; rewrite find_id, E; reflexivity.
Qed.

End InterleavingSpec.

(** C3 (counterexample). Two [setToViewer] requests on the record freshly
    created with no viewers: when both reads run before both writes, each
    request succeeds and the second write overwrites the first,
    [viewers = [2]]. *)
Lemma concurrent_setToViewer_lost_update_counterexample :
  let st0 := snd (AccessListTs.addItem 0 None None empty_store) in
  let '(t1, t2, st) :=
    Interleaving.run2 Interleaving.racy_schedule
      (Interleaving.SV_start 0 1) (Interleaving.SV_start 0 2) st0 in
  t1 = Interleaving.SV_done (Ret ViewersUpdated) /\
  t2 = Interleaving.SV_done (Ret ViewersUpdated) /\
  option_map viewers (lookup_id st 0) = Some [2].
Proof. vm_compute; repeat split. Qed.

(** C3 (amended). The read-modify-write of [setToViewer] is not serialised:
    for an existing record with no viewers and users [u1 <> u2], the
    interleaving with both reads before both writes leaves [viewers = [u2]]
    (the update of [u1] is lost) and both requests report "Viewers
    successfully updated!", while running the requests one after the other
    (both again reporting success) leaves [viewers = [u1; u2]]. *)
Theorem concurrent_setToViewer_interleavings st i d u1 u2 :
  lookup_id st i = Some d -> viewers d = [] -> u1 <> u2 ->
  (let '(t1, t2, st') := Interleaving.run2 Interleaving.racy_schedule
                         (Interleaving.SV_start i u1) (Interleaving.SV_start i u2) st in
   t1 = Interleaving.SV_done (Ret ViewersUpdated) /\
   t2 = Interleaving.SV_done (Ret ViewersUpdated) /\
   option_map viewers (lookup_id st' i) = Some [u2]) /\
  (let '(t1, t2, st') := Interleaving.run2 Interleaving.sequential_schedule
                         (Interleaving.SV_start i u1) (Interleaving.SV_start i u2) st in
   t1 = Interleaving.SV_done (Ret ViewersUpdated) /\
   t2 = Interleaving.SV_done (Ret ViewersUpdated) /\
   option_map viewers (lookup_id st' i) = Some [u1; u2]).
Proof.
  intros E Hv Hne.
  assert (H0 : forall u, includes (viewers d) u = false) by (intros u; rewrite Hv; reflexivity).
  split.
  - unfold Interleaving.racy_schedule.
    rewrite (InterleavingSpec.run2_true _ _ _ _ _ _ (InterleavingSpec.step_start_absent i u1 st d E (H0 u1))).
    rewrite (InterleavingSpec.run2_false _ _ _ _ _ _ (InterleavingSpec.step_start_absent i u2 st d E (H0 u2))).
    rewrite (InterleavingSpec.run2_true _ _ _ _ _ _ (InterleavingSpec.step_catch i u1 st d E)).
    rewrite (InterleavingSpec.run2_false _ _ _ _ _ _ (InterleavingSpec.step_catch i u2 st d E)).
    rewrite (InterleavingSpec.run2_true _ _ _ _ _ _ (InterleavingSpec.step_write i u1 _ st)).
    rewrite (InterleavingSpec.run2_false _ _ _ _ _ _ (InterleavingSpec.step_write i u2 _ _)).
    cbn [Interleaving.run2]; split; [reflexivity | split; [reflexivity|]].
    rewrite (InterleavingSpec.lookup_after_write _ _ _ _
               (InterleavingSpec.lookup_after_write _ _ _ _ E)).
    simpl; rewrite Hv; reflexivity.
  - unfold Interleaving.sequential_schedule.
    rewrite (InterleavingSpec.run2_true _ _ _ _ _ _ (InterleavingSpec.step_start_absent i u1 st d E (H0 u1))).
    rewrite (InterleavingSpec.run2_true _ _ _ _ _ _ (InterleavingSpec.step_catch i u1 st d E)).
    rewrite (InterleavingSpec.run2_true _ _ _ _ _ _ (InterleavingSpec.step_write i u1 _ st)).
    pose proof (InterleavingSpec.lookup_after_write i (viewers d ++ [u1]) st d E) as E1.
    set (st1 := mkStore _ _) in E1 |- *.
    assert (H1 : includes (viewers (apply_update (SetViewers (viewers d ++ [u1])) d)) u2 = false).
    { simpl; rewrite Hv; simpl; destruct (Nat.eqb_spec u2 u1); [congruence | reflexivity]. }
    rewrite (InterleavingSpec.run2_false _ _ _ _ _ _ (InterleavingSpec.step_start_absent i u2 st1 _ E1 H1)).
    rewrite (InterleavingSpec.run2_false _ _ _ _ _ _ (InterleavingSpec.step_catch i u2 st1 _ E1)).
    rewrite (InterleavingSpec.run2_false _ _ _ _ _ _ (InterleavingSpec.step_write i u2 _ st1)).
    cbn [Interleaving.run2]; split; [reflexivity | split; [reflexivity|]].
    rewrite (InterleavingSpec.lookup_after_write _ _ _ _ E1).
    simpl; rewrite Hv; reflexivity.
Qed.

(** ** Witnesses *)

Lemma addItem_then_isOwner_witness :
  let st := snd (AccessListTs.addItem 7 None (Some [3]) empty_store) in
  fresh_ids st /\
  exists d,
    fst (AccessListTs.addItem 3 None None st) = Ret (ItemAdded (Some d)) /\
    let st' := snd (AccessListTs.addItem 3 None None st) in
    fst (AccessListTs.isOwner 3 (_id d) st') = Ret tt /\
    forall v, v <> 3 ->
      fst (AccessListTs.isOwner v (_id d) st') = Throw (ItemOwnerNotMatchError v (_id d)).
Proof.
  assert (Hf : fresh_ids (snd (AccessListTs.addItem 7 None (Some [3]) empty_store)))
    by (vm_compute; repeat constructor).
  split; [exact Hf | apply (addItem_then_isOwner _ 3 None None Hf)].
Defined.

Lemma absent_target_noops_witness :
  let st := snd (AccessListTs.addItem 0 None (Some [5]) empty_store) in
  ids_unique st /\
  (lookup_id st 4 = None -> AccessListTs.deleteItem 4 st = (Ret ItemDeleted, st)) /\
  ((forall d, lookup_id st 0 = Some d -> ~ In 6 (viewers d) /\ ~ In 6 (editors d)) ->
   AccessListTs.removeAccess 0 6 st = (Ret (AlreadyRestricted 6 0), st)) /\
  (forall v, fst (AccessListTs.isOwner v 0 (snd (AccessListTs.deleteItem 0 st))) =
             Throw (NotFoundError 0)).
Proof.
  assert (Hu : ids_unique (snd (AccessListTs.addItem 0 None (Some [5]) empty_store)))
    by (vm_compute; constructor; [intros [] | constructor]).
  split; [exact Hu|].
  pose proof (absent_target_noops _ 4 6 Hu) as [H1 _].
  pose proof (absent_target_noops _ 0 6 Hu) as [_ H2].
  split; [exact H1 | exact H2].
Defined.

Lemma ops_keep_roles_nodup_witness :
  roles_nodup item_store /\ op_args_nodup (ItemSetToViewerAllItems 0 7) /\
  roles_nodup (snd (run_op (ItemSetToViewerAllItems 0 7) item_store)).
Proof.
  assert (Hst : roles_nodup item_store)
    by (vm_compute; repeat constructor; intros []).
  assert (Ha : op_args_nodup (ItemSetToViewerAllItems 0 7)) by exact I.
  split; [exact Hst | split; [exact Ha | apply (ops_keep_roles_nodup _ _ Hst Ha)]].
Defined.

Lemma concurrent_setToViewer_interleavings_witness :
  let st := snd (AccessListTs.addItem 0 None None empty_store) in
  lookup_id st 0 = Some (mkDoc 0 None 0 [] []) /\ (1 <> 2) /\
  (let '(t1, t2, st') := Interleaving.run2 Interleaving.racy_schedule
                         (Interleaving.SV_start 0 1) (Interleaving.SV_start 0 2) st in
   t1 = Interleaving.SV_done (Ret ViewersUpdated) /\
   t2 = Interleaving.SV_done (Ret ViewersUpdated) /\
   option_map viewers (lookup_id st' 0) = Some [2]) /\
  (let '(t1, t2, st') := Interleaving.run2 Interleaving.sequential_schedule
                         (Interleaving.SV_start 0 1) (Interleaving.SV_start 0 2) st in
   t1 = Interleaving.SV_done (Ret ViewersUpdated) /\
   t2 = Interleaving.SV_done (Ret ViewersUpdated) /\
   option_map viewers (lookup_id st' 0) = Some [1; 2]).
Proof.
  assert (E : lookup_id (snd (AccessListTs.addItem 0 None None empty_store)) 0 =
              Some (mkDoc 0 None 0 [] [])) by (vm_compute; reflexivity).
  assert (Hne : 1 <> 2) by lia.
  split; [exact E | split; [exact Hne|]].
  apply (concurrent_setToViewer_interleavings _ 0 _ 1 2 E eq_refl Hne).
Defined.

(** * Further properties of the two versions *)

(** ** List helpers *)

Lemma findIndex_split u l :
  In u l -> exists pre post, l = pre ++ u :: post /\ ~ In u pre /\
                             findIndex u l = Z.of_nat (length pre).
Proof.
  induction l as [|x l IH]; [intros []|].
  intros Hin; simpl findIndex; destruct (Nat.eqb_spec x u) as [<-|Hx].
  - exists [], l; simpl; auto.
  - destruct Hin as [->|Hin]; [congruence|].
    destruct (IH Hin) as (pre & post & -> & Hpre & Hi).
    exists (x :: pre), post; simpl; split; [reflexivity | split; [intuition|]].
    rewrite Hi; destruct (Z.ltb_spec (Z.of_nat (length pre)) 0); lia.
Qed.

Lemma remove_nth_middle {A} (pre post : list A) x :
  remove_nth (length pre) (pre ++ x :: post) = pre ++ post.
Proof. induction pre as [|y pre IH]; simpl; [reflexivity | rewrite IH; reflexivity]. Qed.

Lemma splice1_findIndex u l :
  In u l -> exists pre post, l = pre ++ u :: post /\ ~ In u pre /\
                             splice1 l (findIndex u l) = pre ++ post.
Proof.
  intros Hin; destruct (findIndex_split u l Hin) as (pre & post & -> & Hpre & Hi).
  exists pre, post; split; [reflexivity | split; [exact Hpre|]].
  rewrite Hi; unfold splice1; rewrite length_app; simpl.
  destruct (Z.ltb_spec (Z.of_nat (length pre)) 0); [lia|].
  rewrite Z.min_l by lia; rewrite Nat2Z.id; apply remove_nth_middle.
Qed.

Lemma splice1_findIndex_removes u l :
  NoDup l -> In u l -> ~ In u (splice1 l (findIndex u l)).
Proof.
  intros Hnd Hin; destruct (splice1_findIndex u l Hin) as (pre & post & -> & Hpre & ->).
  apply NoDup_remove_2 in Hnd; exact Hnd.
Qed.

Lemma findIndex_In_nonneg u l : In u l -> Z.eqb (findIndex u l) (-1) = false.
Proof.
  intros Hin; destruct (findIndex_split u l Hin) as (pre & post & _ & _ & ->).
  apply Z.eqb_neq; lia.
Qed.

Module TsMore.
Import AccessListTs.

(** [removeAccess] on a record that holds the user in one of its lists. *)
Lemma removeAccess_spec_in i u st d :
  lookup_id st i = Some d -> In u (viewers d) \/ In u (editors d) ->
  removeAccess i u st =
  if includes (viewers d) u then
    (Ret ViewersUpdated,
     mkStore (update_first [Eq F_id i]
                (SetViewers (splice1 (viewers d) (findIndex u (viewers d)))) (docs st))
             (next_id st))
  else
    (Ret ViewersUpdated,
     mkStore (update_first [Eq F_id i]
                (SetEditors (splice1 (editors d) (findIndex u (editors d)))) (docs st))
             (next_id st)).
Proof.
  intros Hl Hu.
  destruct (find_some_split _ _ _ Hl) as (pre & post & Hdocs & Hd & Hpre).
  apply (pre_not_id i [OrViewersEditors u]) in Hpre.
  unfold removeAccess; unfold bind, readOne, ret, updateOne.
  rewrite Hdocs, find_split_prefix; [|exact Hpre|].
  2:{ rewrite matches_id_cons, Hd; unfold matches; simpl; rewrite andb_true_r.
      apply orb_true_iff; destruct Hu as [Hu|Hu]; [left|right]; apply includes_In, Hu. }
  rewrite <- Hdocs; cbv zeta.
  destruct (includes (viewers d) u) eqn:Hv.
  - rewrite findIndex_In_nonneg by (apply includes_In, Hv); reflexivity.
  - apply includes_false_not_In in Hv.
    rewrite (findIndex_not_In u (viewers d) Hv); cbn [Z.eqb Pos.eqb negb].
    destruct Hu as [Hu|Hu]; [contradiction|].
    rewrite findIndex_In_nonneg by exact Hu; reflexivity.
Qed.

Lemma lookup_after_update i u st d :
  lookup_id st i = Some d ->
  lookup_id (mkStore (update_first [Eq F_id i] u (docs st)) (next_id st)) i =
  Some (apply_update u d).
Proof.
  intros E; unfold lookup_id; simpl docs; rewrite lookup_update_first.
  fold (lookup_id st i); rewrite E; reflexivity.
Qed.

End TsMore.

(** The [_id]-keyed [setToEditor]: a second call finds the user and changes nothing. *)
Theorem setToEditor_ts_idempotent st i u :
  let st1 := snd (AccessListTs.setToEditor i u st) in
  AccessListTs.setToEditor i u st1 =
  (match lookup_id st i with
   | None => Throw (NotFoundError i)
   | Some _ => Ret (AlreadyEditor u i)
   end, st1).
Proof.
  cbv zeta; rewrite (TsSpec.setToEditor_spec i u st).
  destruct (lookup_id st i) as [d|] eqn:E.
  - destruct (includes (editors d) u) eqn:Hin; simpl snd.
    + rewrite TsSpec.setToEditor_spec, E, Hin; reflexivity.
    + rewrite TsSpec.setToEditor_spec, (TsMore.lookup_after_update _ _ _ _ E); simpl.
      replace (includes (editors d ++ [u]) u) with true; [reflexivity|].
      symmetry; apply includes_In, in_or_app; simpl; tauto.
  - simpl snd; rewrite TsSpec.setToEditor_spec, E; reflexivity.
Qed.

(** Granting a role makes the matching strict check pass. *)
Theorem grant_then_check_ts st i u :
  lookup_id st i <> None ->
  fst (AccessListTs.isViewer u i (snd (AccessListTs.setToViewer i u st))) = Ret tt /\
  fst (AccessListTs.isEditor u i (snd (AccessListTs.setToEditor i u st))) = Ret tt.
Proof.
  intros Hex; destruct (lookup_id st i) as [d|] eqn:E; [clear Hex | congruence].
  split.
  - rewrite TsSpec.setToViewer_spec, E.
    destruct (includes (viewers d) u) eqn:Hin; simpl snd; rewrite TsSpec.isViewer_spec.
    + rewrite E, Hin; reflexivity.
    + rewrite (TsMore.lookup_after_update _ _ _ _ E); simpl.
      replace (includes (viewers d ++ [u]) u) with true; [reflexivity|].
      symmetry; apply includes_In, in_or_app; simpl; tauto.
  - rewrite TsSpec.setToEditor_spec, E.
    destruct (includes (editors d) u) eqn:Hin; simpl snd; rewrite TsSpec.isEditor_spec.
    + rewrite E, Hin; reflexivity.
    + rewrite (TsMore.lookup_after_update _ _ _ _ E); simpl.
      replace (includes (editors d ++ [u]) u) with true; [reflexivity|].
      symmetry; apply includes_In, in_or_app; simpl; tauto.
Qed.

(** The fall-through of [removeAccess] ([return undefined]) is unreachable:
    the result is "already restricted" or an update message. *)
Theorem removeAccess_ts_never_undefined i u st :
  fst (AccessListTs.removeAccess i u st) = Ret (AlreadyRestricted u i) \/
  fst (AccessListTs.removeAccess i u st) = Ret ViewersUpdated.
Proof.
  unfold AccessListTs.removeAccess; unfold bind, readOne, ret, updateOne.
  destruct (find (matches [Eq F_id i; OrViewersEditors u]) (docs st)) as [d|] eqn:E;
    [|left; reflexivity].
  right; apply find_some in E as [_ Hm].
  unfold matches in Hm; simpl in Hm; rewrite andb_true_r in Hm.
  apply andb_true_iff in Hm as [_ Hm]; apply orb_true_iff in Hm.
  cbv zeta; destruct (includes (viewers d) u) eqn:Hv.
  - rewrite findIndex_In_nonneg by (apply includes_In, Hv); reflexivity.
  - destruct Hm as [Hm|Hm]; [congruence|].
    apply includes_false_not_In in Hv.
    rewrite (findIndex_not_In u (viewers d) Hv); cbn [Z.eqb Pos.eqb negb].
    rewrite findIndex_In_nonneg by (apply includes_In, Hm); reflexivity.
Qed.

(** [removeAccess] revokes the viewer role first and leaves the editors alone. *)
Theorem removeAccess_ts_revokes_viewer st i u d :
  lookup_id st i = Some d -> In u (viewers d) -> NoDup (viewers d) ->
  let st' := snd (AccessListTs.removeAccess i u st) in
  exists d', lookup_id st' i = Some d' /\ editors d' = editors d /\ ~ In u (viewers d') /\
             fst (AccessListTs.isViewer u i st') = Throw (ItemViewerNotMatchError u i).
Proof.
  intros E Hu Hnd; cbv zeta.
  rewrite (TsMore.removeAccess_spec_in i u st d E (or_introl Hu)).
  rewrite (proj2 (includes_In _ _) Hu); simpl snd.
  eexists; split; [apply (TsMore.lookup_after_update _ _ _ _ E)|]; cbn [apply_update editors viewers].
  assert (Hn : ~ In u (splice1 (viewers d) (findIndex u (viewers d))))
    by (apply splice1_findIndex_removes; assumption).
  split; [reflexivity | split; [exact Hn|]].
  rewrite TsSpec.isViewer_spec, (TsMore.lookup_after_update _ _ _ _ E); cbn [apply_update viewers].
  rewrite (proj2 (includes_false_not_In _ _) Hn); reflexivity.
Qed.

(** For a user who is an editor but not a viewer, [removeAccess] revokes the
    editor role and leaves the viewers alone. *)
Theorem removeAccess_ts_revokes_editor st i u d :
  lookup_id st i = Some d -> ~ In u (viewers d) -> In u (editors d) -> NoDup (editors d) ->
  let st' := snd (AccessListTs.removeAccess i u st) in
  exists d', lookup_id st' i = Some d' /\ viewers d' = viewers d /\ ~ In u (editors d') /\
             fst (AccessListTs.isEditor u i st') = Throw (ItemEditorNotMatchError u i).
Proof.
  intros E Hv Hu Hnd; cbv zeta.
  rewrite (TsMore.removeAccess_spec_in i u st d E (or_intror Hu)).
  rewrite (proj2 (includes_false_not_In _ _) Hv); simpl snd.
  eexists; split; [apply (TsMore.lookup_after_update _ _ _ _ E)|]; cbn [apply_update editors viewers].
  assert (Hn : ~ In u (splice1 (editors d) (findIndex u (editors d))))
    by (apply splice1_findIndex_removes; assumption).
  split; [reflexivity | split; [exact Hn|]].
  rewrite TsSpec.isEditor_spec, (TsMore.lookup_after_update _ _ _ _ E); cbn [apply_update editors].
  rewrite (proj2 (includes_false_not_In _ _) Hn); reflexivity.
Qed.

Lemma delete_first_app_nomatch q l x :
  find (matches q) l = None -> matches q x = true -> delete_first q (l ++ [x]) = l.
Proof.
  intros Hn Hx; induction l as [|y l IH]; cbn [delete_first app]; simpl in Hn.
  - rewrite Hx; reflexivity.
  - destruct (matches q y); [discriminate | rewrite IH; auto].
Qed.

Lemma filter_none_true (i : ObjectId) l :
  ~ In i (map _id l) -> filter (fun d => negb (Nat.eqb (_id d) i)) l = l.
Proof.
  induction l as [|d l IH]; simpl; [reflexivity|].
  intros H; destruct (Nat.eqb_spec (_id d) i); [tauto | simpl; rewrite IH; tauto].
Qed.

(** With unique ids, [deleteItem] removes exactly the record with that id. *)
Theorem deleteItem_ts_removes_exactly st i :
  ids_unique st ->
  docs (snd (AccessListTs.deleteItem i st)) =
  filter (fun d => negb (Nat.eqb (_id d) i)) (docs st).
Proof.
  unfold ids_unique; rewrite TsSpec.deleteItem_spec; simpl.
  induction (docs st) as [|d l IH]; cbn [delete_first filter map]; [reflexivity|].
  intros Hnd; apply NoDup_cons_iff in Hnd as [Hd Hnd].
  rewrite matches_id; destruct (Nat.eqb_spec (_id d) i) as [<-|E]; cbn [negb].
  - symmetry; apply filter_none_true, Hd.
  - rewrite IH by exact Hnd; reflexivity.
Qed.

(** [addItem] then [deleteItem] of the created record gives back the documents. *)
Theorem addItem_deleteItem_ts_roundtrip st o eds vws :
  fresh_ids st ->
  exists d, fst (AccessListTs.addItem o eds vws st) = Ret (ItemAdded (Some d)) /\
            docs (snd (AccessListTs.deleteItem (_id d) (snd (AccessListTs.addItem o eds vws st)))) =
            docs st.
Proof.
  intros Hf; rewrite (TsSpec.addItem_spec o eds vws st Hf).
  eexists; split; [reflexivity|]; cbn zeta.
  rewrite TsSpec.deleteItem_spec; cbn [snd docs _id].
  apply delete_first_app_nomatch; [apply TsSpec.lookup_fresh_none, Hf|].
  rewrite matches_id; apply Nat.eqb_refl.
Qed.

(** ** part_001: [addItem], [isOwner] and [deleteItem] by item *)

Lemma addItem_item_store it o e v st :
  snd (AccessListItem.addItem it o e v st) =
  mkStore (docs st ++ [mkDoc (next_id st) (Some it) o
                         (match e with None => [] | Some l => l end)
                         (match v with None => [] | Some l => l end)])
          (S (next_id st)).
Proof. reflexivity. Qed.

Lemma find_item_none it l :
  Forall (fun d => item d <> Some it) l -> find (matches [Eq Fitem it]) l = None.
Proof.
  induction 1 as [|d l Hd Hl IH]; [reflexivity|]; cbn [find].
  unfold matches; simpl; destruct (item d) as [x|] eqn:E; simpl; [|exact IH].
  destruct (Nat.eqb_spec x it); [subst; congruence | exact IH].
Qed.

(** When no earlier record carries item [it], the record created by
    [addItem(it, u, ...)] is the one [isOwner] finds: [u] passes, every other
    user fails with the owner mismatch error. *)
Theorem addItem_item_then_isOwner st it u eds vws :
  Forall (fun d => item d <> Some it) (docs st) ->
  let st' := snd (AccessListItem.addItem it u eds vws st) in
  fst (AccessListItem.isOwner u it st') = Ret tt /\
  forall v, v <> u -> fst (AccessListItem.isOwner v it st') = Throw (ItemOwnerNotMatchError v it).
Proof.
  intros Hno; cbv zeta; rewrite addItem_item_store.
  assert (Hf : forall w, fst (AccessListItem.isOwner w it
            (mkStore (docs st ++ [mkDoc (next_id st) (Some it) u
                         (match eds with None => [] | Some l => l end)
                         (match vws with None => [] | Some l => l end)])
                     (S (next_id st)))) =
            if Nat.eqb u w then Ret tt else Throw (ItemOwnerNotMatchError w it)).
  { intros w; unfold AccessListItem.isOwner; unfold bind, readOne; cbn [docs].
    rewrite find_app, (find_item_none it _ Hno); simpl; rewrite Nat.eqb_refl; simpl.
    destruct (Nat.eqb u w); reflexivity. }
  split; [rewrite Hf, Nat.eqb_refl; reflexivity|].
  intros v Hv; rewrite Hf; destruct (Nat.eqb_spec u v); [congruence | reflexivity].
Qed.

(** As in route [createPost]/[deletePost]: [addItem(it, ...)] then
    [deleteItem(it)] gives back the documents, when no earlier record
    carries item [it]. *)
Theorem addItem_deleteItem_item_roundtrip st it o eds vws :
  Forall (fun d => item d <> Some it) (docs st) ->
  docs (snd (AccessListItem.deleteItem it (snd (AccessListItem.addItem it o eds vws st)))) =
  docs st.
Proof.
  intros Hno; rewrite addItem_item_store.
  unfold AccessListItem.deleteItem; unfold bind, deleteOne, ret; cbn [snd docs].
  apply delete_first_app_nomatch; [apply find_item_none, Hno|].
  unfold matches; simpl; rewrite Nat.eqb_refl; reflexivity.
Qed.

(** ** The bulk loops of part_001 *)

Lemma apply_update_id u d : _id (apply_update u d) = _id d.
Proof. destruct u; reflexivity. Qed.

Lemma apply_update_owner u d : owner (apply_update u d) = owner d.
Proof. destruct u; reflexivity. Qed.

Lemma ids_same_in l x y :
  NoDup (map _id l) -> In x l -> In y l -> _id x = _id y -> x = y.
Proof.
  induction l as [|z l IH]; [intros _ []|]; cbn [map In].
  intros Hnd; apply NoDup_cons_iff in Hnd as [Hz Hnd].
  intros [<-|Hx] [<-|Hy] E; auto.
  - exfalso; apply Hz; rewrite E; apply in_map, Hy.
  - exfalso; apply Hz; rewrite <- E; apply in_map, Hx.
Qed.

(** With unique ids, [update_first] on an id rewrites exactly that record. *)
Lemma update_first_unique_map k u l :
  NoDup (map _id l) ->
  update_first [Eq F_id k] u l =
  map (fun x => if Nat.eqb (_id x) k then apply_update u x else x) l.
Proof.
  induction l as [|d l IH]; cbn [update_first map]; [reflexivity|].
  intros Hnd; apply NoDup_cons_iff in Hnd as [Hd Hnd].
  rewrite matches_id; destruct (Nat.eqb_spec (_id d) k) as [<-|E].
  - f_equal; rewrite <- (map_id l) at 1; apply map_ext_in; intros x Hx.
    destruct (Nat.eqb_spec (_id x) (_id d)) as [E|]; [|reflexivity].
    exfalso; apply Hd; rewrite <- E; apply in_map, Hx.
  - f_equal; apply IH, Hnd.
Qed.

Lemma map_ids_preserved (f : ItemAccessDoc -> ItemAccessDoc) l :
  (forall x, _id (f x) = _id x) -> map _id (map f l) = map _id l.
Proof. intros Hf; rewrite map_map; apply map_ext; exact Hf. Qed.

Section BulkLoop.
(** A loop that, for each listed record, rewrites the record with that id by
    [u it] when [c it] holds. *)
Variable c : ItemAccessDoc -> bool.
Variable u : ItemAccessDoc -> update.
Variable loop : list ItemAccessDoc -> M unit.
Hypothesis loop_nil : forall st, snd (loop [] st) = st.
Hypothesis loop_cons : forall it rest st,
  snd (loop (it :: rest) st) =
  snd (loop rest (if c it
                  then mkStore (update_first [Eq F_id (_id it)] (u it) (docs st)) (next_id st)
                  else st)).

Lemma bulk_loop_docs its st :
  NoDup (map _id (docs st)) -> NoDup (map _id its) -> incl its (docs st) ->
  docs (snd (loop its st)) =
  map (fun x => if existsb (fun y => Nat.eqb (_id y) (_id x)) its
                then (if c x then apply_update (u x) x else x) else x) (docs st).
Proof.
  revert st; induction its as [|it rest IH]; intros st Hst Hits Hincl.
  - rewrite loop_nil; symmetry; apply map_id.
  - cbn [map] in Hits; apply NoDup_cons_iff in Hits as [Hit Hrest].
    assert (Hin : In it (docs st)) by (apply Hincl; left; reflexivity).
    set (G := fun x => if Nat.eqb (_id x) (_id it)
                       then (if c x then apply_update (u x) x else x) else x).
    assert (Hst1 : docs (if c it
                  then mkStore (update_first [Eq F_id (_id it)] (u it) (docs st)) (next_id st)
                  else st) = map G (docs st)).
    { destruct (c it) eqn:Ec; cbn [docs].
      - rewrite update_first_unique_map by exact Hst.
        apply map_ext_in; intros x Hx; unfold G.
        destruct (Nat.eqb_spec (_id x) (_id it)) as [E|]; [|reflexivity].
        rewrite (ids_same_in _ _ _ Hst Hx Hin E), Ec; reflexivity.
      - symmetry; transitivity (map (fun x => x) (docs st)); [|apply map_id].
        apply map_ext_in; intros x Hx; unfold G.
        destruct (Nat.eqb_spec (_id x) (_id it)) as [E|]; [|reflexivity].
        rewrite (ids_same_in _ _ _ Hst Hx Hin E), Ec; reflexivity. }
    assert (HG : forall x, _id (G x) = _id x).
    { intros x; unfold G; destruct (Nat.eqb (_id x) (_id it)), (c x);
        rewrite ?apply_update_id; reflexivity. }
    rewrite loop_cons, IH; rewrite ?Hst1.
    + rewrite map_map; apply map_ext_in; intros x Hx.
      rewrite HG; cbn [existsb].
      unfold G; destruct (Nat.eqb_spec (_id x) (_id it)) as [E|E].
      * rewrite E, Nat.eqb_refl; cbn [orb].
        replace (existsb (fun y => Nat.eqb (_id y) (_id it)) rest) with false; [reflexivity|].
        symmetry; apply not_true_iff_false; intros Hex.
        apply existsb_exists in Hex as (y & Hy & Ey); apply Nat.eqb_eq in Ey.
        apply Hit; rewrite <- Ey; apply in_map, Hy.
      * replace (Nat.eqb (_id it) (_id x)) with false by (symmetry; apply Nat.eqb_neq; congruence).
        reflexivity.
    + rewrite map_ids_preserved by exact HG; exact Hst.
    + exact Hrest.
    + intros y Hy.
      assert (Hyd : In y (docs st)) by (apply Hincl; right; exact Hy).
      replace y with (G y) at 1; [apply in_map, Hyd|].
      unfold G; destruct (Nat.eqb_spec (_id y) (_id it)) as [E|]; [|reflexivity].
      exfalso; apply Hit; rewrite <- E; apply in_map, Hy.
Qed.

End BulkLoop.

Lemma NoDup_map_filter (f : ItemAccessDoc -> bool) l :
  NoDup (map _id l) -> NoDup (map _id (filter f l)).
Proof.
  induction l as [|d l IH]; cbn [filter map]; [auto|].
  intros Hnd; apply NoDup_cons_iff in Hnd as [Hd Hnd].
  destruct (f d); cbn [map]; [|auto].
  constructor; [|auto].
  intros Hin; apply Hd; apply in_map_iff in Hin as (y & Ey & Hy).
  apply filter_In in Hy as [Hy _]; rewrite <- Ey; apply in_map, Hy.
Qed.

Lemma existsb_filter_ids q l x :
  NoDup (map _id l) -> In x l ->
  existsb (fun y => Nat.eqb (_id y) (_id x)) (filter (matches q) l) = matches q x.
Proof.
  intros Hnd Hx; destruct (matches q x) eqn:Hq.
  - apply existsb_exists; exists x; split; [apply filter_In; auto | apply Nat.eqb_refl].
  - apply not_true_iff_false; intros Hex.
    apply existsb_exists in Hex as (y & Hy & Ey); apply Nat.eqb_eq in Ey.
    apply filter_In in Hy as [Hy Hyq].
    rewrite (ids_same_in _ _ _ Hnd Hy Hx Ey) in Hyq; congruence.
Qed.

Lemma bind_ret_snd {A B} (m : M A) (k : A -> M B) st a :
  fst (m st) = Ret a -> snd (bind m k st) = snd (k a (snd (m st))).
Proof. unfold bind; destruct (m st) as [r s]; simpl; intros ->; reflexivity. Qed.

Lemma setToViewerAllItems_loop_ret user its st :
  fst (AccessListItem.setToViewerAllItems_loop user its st) = Ret tt.
Proof.
  revert st; induction its as [|it rest IH]; intros st; [reflexivity|].
  cbn [AccessListItem.setToViewerAllItems_loop]; unfold bind.
  destruct (negb (existsb (Nat.eqb user) (viewers it))); apply IH.
Qed.

Lemma removeAccessAllItems_loop_ret user its st :
  fst (AccessListItem.removeAccessAllItems_loop user its st) = Ret tt.
Proof.
  revert st; induction its as [|it rest IH]; intros st; [reflexivity|].
  cbn [AccessListItem.removeAccessAllItems_loop]; unfold bind; cbv zeta.
  destruct (negb (Z.eqb (findIndex user (viewers it)) (-1))); apply IH.
Qed.

Lemma setToViewerAllItems_snd o user st :
  snd (AccessListItem.setToViewerAllItems o user st) =
  snd (AccessListItem.setToViewerAllItems_loop user (filter (matches [Eq Fowner o]) (docs st)) st).
Proof.
  unfold AccessListItem.setToViewerAllItems, AccessListItem.getItemsByOwner.
  rewrite (bind_ret_snd (readMany [Eq Fowner o]) _ st
             (filter (matches [Eq Fowner o]) (docs st)) eq_refl); cbn [snd readMany].
  rewrite (bind_ret_snd _ _ _ _ (setToViewerAllItems_loop_ret _ _ _)); reflexivity.
Qed.

Lemma removeAccessAllItems_snd o user st :
  snd (AccessListItem.removeAccessAllItems o user st) =
  snd (AccessListItem.removeAccessAllItems_loop user
         (filter (matches [Eq Fowner o; OrViewersEditors user]) (docs st)) st).
Proof.
  unfold AccessListItem.removeAccessAllItems.
  rewrite (bind_ret_snd (readMany [Eq Fowner o; OrViewersEditors user]) _ st
             (filter (matches [Eq Fowner o; OrViewersEditors user]) (docs st)) eq_refl);
    cbn [snd readMany].
  rewrite (bind_ret_snd _ _ _ _ (removeAccessAllItems_loop_ret _ _ _)); reflexivity.
Qed.

(* With unique ids, [setToViewerAllItems(o, user)] adds [user] to the
    viewers of every record owned by [o] that lacks it and leaves every
    other record as it is. *)
Lemma setToViewerAllItems_docs_map st o user :
  ids_unique st ->
  docs (snd (AccessListItem.setToViewerAllItems o user st)) =
  map (fun x => if Nat.eqb (owner x) o then grant_viewer user x else x) (docs st).
Proof.
  intros Hu; rewrite setToViewerAllItems_snd.
  rewrite (bulk_loop_docs (fun it => negb (existsb (Nat.eqb user) (viewers it)))
             (fun it => SetViewers (viewers it ++ [user]))
             (AccessListItem.setToViewerAllItems_loop user)).
  - apply map_ext_in; intros x Hx.
    rewrite (existsb_filter_ids _ _ _ Hu Hx).
    unfold matches; simpl; rewrite andb_true_r; reflexivity.
  - reflexivity.
  - intros it rest st'; cbn [AccessListItem.setToViewerAllItems_loop]; unfold bind.
    destruct (negb (existsb (Nat.eqb user) (viewers it))); reflexivity.
  - exact Hu.
  - apply NoDup_map_filter, Hu.
  - intros y Hy; apply filter_In in Hy; tauto.
Qed.

(* With unique ids, [removeAccessAllItems(o, user)] rewrites every record
    owned by [o] that lists [user] as viewer or editor with the update of
    its loop body (viewers searched first), and leaves every other record. *)
Lemma removeAccessAllItems_docs_map st o user :
  ids_unique st ->
  docs (snd (AccessListItem.removeAccessAllItems o user st)) =
  map (fun x => if Nat.eqb (owner x) o &&
                   (includes (viewers x) user || includes (editors x) user)
                then apply_update (revoke_update user x) x else x) (docs st).
Proof.
  intros Hu; rewrite removeAccessAllItems_snd.
  rewrite (bulk_loop_docs (fun _ => true) (revoke_update user)
             (AccessListItem.removeAccessAllItems_loop user)).
  - apply map_ext_in; intros x Hx.
    rewrite (existsb_filter_ids _ _ _ Hu Hx).
    unfold matches; simpl; rewrite andb_true_r; reflexivity.
  - reflexivity.
  - intros it rest st'; cbn [AccessListItem.removeAccessAllItems_loop]; unfold bind; cbv zeta.
    unfold revoke_update; destruct (negb (Z.eqb (findIndex user (viewers it)) (-1)));
      reflexivity.
  - exact Hu.
  - apply NoDup_map_filter, Hu.
  - intros y Hy; apply filter_In in Hy; tauto.
Qed.

Lemma grant_viewer_id u x : _id (grant_viewer u x) = _id x.
Proof. unfold grant_viewer; destruct (negb _); reflexivity. Qed.

Lemma grant_viewer_owner u x : owner (grant_viewer u x) = owner x.
Proof. unfold grant_viewer; destruct (negb _); reflexivity. Qed.

Lemma grant_viewer_In u x : In u (viewers (grant_viewer u x)).
Proof.
  unfold grant_viewer; change (existsb (Nat.eqb u) (viewers x)) with (includes (viewers x) u).
  destruct (includes (viewers x) u) eqn:E; simpl.
  - apply includes_In, E.
  - apply in_or_app; simpl; tauto.
Qed.

Lemma grant_viewer_idem u x : grant_viewer u (grant_viewer u x) = grant_viewer u x.
Proof.
  unfold grant_viewer at 1; change (existsb (Nat.eqb u) (viewers (grant_viewer u x)))
    with (includes (viewers (grant_viewer u x)) u).
  rewrite (proj2 (includes_In _ _) (grant_viewer_In u x)); reflexivity.
Qed.

Lemma revoke_after_grant u x :
  ~ In u (viewers x) ->
  includes (viewers (grant_viewer u x)) u = true /\
  apply_update (revoke_update u (grant_viewer u x)) (grant_viewer u x) = x.
Proof.
  intros Hx; split; [apply includes_In, grant_viewer_In|].
  unfold grant_viewer; change (existsb (Nat.eqb u) (viewers x)) with (includes (viewers x) u).
  rewrite (proj2 (includes_false_not_In _ _) Hx); cbn [negb].
  unfold revoke_update; cbn [apply_update viewers editors]; cbv zeta.
  rewrite findIndex_app_last by exact Hx.
  replace (Z.eqb (Z.of_nat (length (viewers x))) (-1)) with false
    by (symmetry; apply Z.eqb_neq; lia).
  cbn [negb apply_update]; rewrite splice1_app_last; destruct x; reflexivity.
Qed.

Lemma ids_unique_map f st st' :
  (forall x, _id (f x) = _id x) -> docs st' = map f (docs st) ->
  ids_unique st -> ids_unique st'.
Proof. unfold ids_unique; intros Hf -> H; rewrite map_ids_preserved; assumption. Qed.

(** After [setToViewerAllItems(o, user)] (unique ids), [user] is a viewer of
    every record owned by [o]; records of other owners are unchanged; a
    second call changes nothing. *)
Theorem setToViewerAllItems_grants st o user :
  ids_unique st ->
  let st' := snd (AccessListItem.setToViewerAllItems o user st) in
  (forall d, In d (docs st') -> owner d = o -> In user (viewers d)) /\
  filter (fun d => negb (Nat.eqb (owner d) o)) (docs st') =
  filter (fun d => negb (Nat.eqb (owner d) o)) (docs st) /\
  docs (snd (AccessListItem.setToViewerAllItems o user st')) = docs st'.
Proof.
  intros Hu; cbv zeta.
  pose proof (setToViewerAllItems_docs_map st o user Hu) as E.
  assert (Hf : forall x, _id ((fun x => if Nat.eqb (owner x) o then grant_viewer user x else x) x) = _id x)
    by (intros x; destruct (Nat.eqb (owner x) o); [apply grant_viewer_id | reflexivity]).
  split; [|split].
  - intros d Hd Ho; rewrite E in Hd; apply in_map_iff in Hd as (x & <- & Hx).
    destruct (Nat.eqb_spec (owner x) o); [apply grant_viewer_In|congruence].
  - rewrite E; clear E; induction (docs st) as [|x l IH]; [reflexivity|].
    cbn [map filter]; destruct (Nat.eqb (owner x) o) eqn:Ho.
    + rewrite grant_viewer_owner, Ho; exact IH.
    + rewrite Ho; cbn [negb]; f_equal; exact IH.
  - rewrite (setToViewerAllItems_docs_map _ o user (ids_unique_map _ _ _ Hf E Hu)), E, map_map.
    apply map_ext; intros x; destruct (Nat.eqb (owner x) o) eqn:Ho; [|rewrite Ho; reflexivity].
    rewrite grant_viewer_owner, Ho, grant_viewer_idem; reflexivity.
Qed.

(** [removeAccessAllItems(o, user)] right after [setToViewerAllItems(o, user)]
    gives back the documents, when [user] was a viewer of none of the records
    owned by [o] (unique ids). *)
Theorem setToViewerAllItems_removeAccessAllItems_roundtrip st o user :
  ids_unique st ->
  (forall d, In d (docs st) -> owner d = o -> ~ In user (viewers d)) ->
  docs (snd (AccessListItem.removeAccessAllItems o user
               (snd (AccessListItem.setToViewerAllItems o user st)))) = docs st.
Proof.
  intros Hu Hv.
  pose proof (setToViewerAllItems_docs_map st o user Hu) as E.
  assert (Hf : forall x, _id ((fun x => if Nat.eqb (owner x) o then grant_viewer user x else x) x) = _id x)
    by (intros x; destruct (Nat.eqb (owner x) o); [apply grant_viewer_id | reflexivity]).
  rewrite (removeAccessAllItems_docs_map _ o user (ids_unique_map _ _ _ Hf E Hu)), E, map_map.
  rewrite <- (map_id (docs st)) at 2; apply map_ext_in; intros x Hx.
  destruct (Nat.eqb_spec (owner x) o) as [Ho|Ho].
  - destruct (revoke_after_grant user x (Hv x Hx Ho)) as [Hin Hrev].
    rewrite grant_viewer_owner, Hin, orb_true_l.
    destruct (Nat.eqb_spec (owner x) o); [exact Hrev | congruence].
  - destruct (Nat.eqb_spec (owner x) o); [congruence | reflexivity].
Qed.

Lemma setToViewerAllItems_fst o user st :
  fst (AccessListItem.setToViewerAllItems o user st) = Ret AllItemsUpdated.
Proof.
  unfold AccessListItem.setToViewerAllItems, AccessListItem.getItemsByOwner; unfold bind at 1, readMany.
  unfold bind; pose proof (setToViewerAllItems_loop_ret user
                             (filter (matches [Eq Fowner o]) (docs st)) st) as H.
  destruct (AccessListItem.setToViewerAllItems_loop _ _ _) as [r s]; simpl in *; subst; reflexivity.
Qed.

Lemma removeAccessAllItems_fst o user st :
  fst (AccessListItem.removeAccessAllItems o user st) = Ret (AccessForUpdated user).
Proof.
  unfold AccessListItem.removeAccessAllItems; unfold bind at 1, readMany.
  unfold bind; pose proof (removeAccessAllItems_loop_ret user
             (filter (matches [Eq Fowner o; OrViewersEditors user]) (docs st)) st) as H.
  destruct (AccessListItem.removeAccessAllItems_loop _ _ _) as [r s]; simpl in *; subst; reflexivity.
Qed.

(** Routes [acceptFriendRequest] then [removeFriend] between two distinct
    users give back the access documents, when neither user was a viewer of
    the other's records before (unique ids). *)
Theorem friend_accept_then_remove_roundtrip st user fromId :
  user <> fromId -> ids_unique st ->
  (forall d, In d (docs st) -> owner d = fromId -> ~ In user (viewers d)) ->
  (forall d, In d (docs st) -> owner d = user -> ~ In fromId (viewers d)) ->
  docs (snd (Routes.removeFriend_access user fromId
               (snd (Routes.acceptFriendRequest_access user fromId st)))) = docs st.
Proof.
  intros Hne Hu H1 H2.
  unfold Routes.acceptFriendRequest_access, Routes.removeFriend_access.
  rewrite (bind_ret_snd _ _ _ _ (removeAccessAllItems_fst _ _ _)).
  rewrite (bind_ret_snd _ _ _ _ (removeAccessAllItems_fst _ _ _)).
  rewrite (bind_ret_snd _ _ _ _ (setToViewerAllItems_fst _ _ _)).
  rewrite (bind_ret_snd _ _ _ _ (setToViewerAllItems_fst _ _ _)).
  cbn [ret snd].
  set (F1 := fun x => if Nat.eqb (owner x) fromId then grant_viewer user x else x).
  set (F2 := fun x => if Nat.eqb (owner x) user then grant_viewer fromId x else x).
  assert (HF1 : forall x, _id (F1 x) = _id x)
    by (intros x; unfold F1; destruct (Nat.eqb (owner x) fromId); [apply grant_viewer_id | reflexivity]).
  assert (HF2 : forall x, _id (F2 x) = _id x)
    by (intros x; unfold F2; destruct (Nat.eqb (owner x) user); [apply grant_viewer_id | reflexivity]).
  pose proof (setToViewerAllItems_docs_map st fromId user Hu) as E1; fold F1 in E1.
  pose proof (ids_unique_map _ _ _ HF1 E1 Hu) as Hu1.
  pose proof (setToViewerAllItems_docs_map _ user fromId Hu1) as E2; fold F2 in E2.
  rewrite E1, map_map in E2.
  pose proof (ids_unique_map (fun x => F2 (F1 x)) _ _
                (fun x => eq_trans (HF2 (F1 x)) (HF1 x)) E2 Hu) as Hu2.
  pose proof (removeAccessAllItems_docs_map _ fromId user Hu2) as E3.
  rewrite E2, map_map in E3.
  match type of E3 with _ = map ?R _ =>
    assert (HR : forall x, _id (R x) = _id x) end.
  { intros x; cbv beta.
    destruct (_ && _); [rewrite apply_update_id|]; rewrite HF2, HF1; reflexivity. }
  pose proof (ids_unique_map _ _ _ HR E3 Hu) as Hu3.
  rewrite (removeAccessAllItems_docs_map _ user fromId Hu3), E3, map_map.
  transitivity (map (fun x => x) (docs st)); [| apply map_id].
  apply map_ext_in; intros x Hx.
  unfold F1, F2; cbv beta.
  assert (E1u : Nat.eqb fromId user = false) by (apply Nat.eqb_neq; congruence).
  assert (Eu1 : Nat.eqb user fromId = false) by (apply Nat.eqb_neq; congruence).
  destruct (Nat.eqb_spec (owner x) fromId) as [Ho|Ho].
  - destruct (revoke_after_grant user x (H1 x Hx Ho)) as [Hin Hrev].
    rewrite !grant_viewer_owner, Ho, E1u; cbn [andb].
    rewrite !grant_viewer_owner, Ho, Nat.eqb_refl, Hin, orb_true_l; cbn [andb].
    rewrite Hrev, Ho, E1u; cbn [andb]; reflexivity.
  - destruct (Nat.eqb_spec (owner x) user) as [Hw|Hw].
    + destruct (revoke_after_grant fromId x (H2 x Hx Hw)) as [Hin Hrev].
      rewrite !grant_viewer_owner, Hw, Eu1; cbn [andb].
      rewrite grant_viewer_owner, Hw, Nat.eqb_refl, Hin, orb_true_l; cbn [andb].
      exact Hrev.
    + apply Nat.eqb_neq in Ho, Hw.
      repeat (first [rewrite Ho | rewrite Hw]; cbn [andb]); reflexivity.
Qed.

(** ** Owners under the bulk operations *)

Lemma setToViewerAllItems_loop_owners user items :
  preserves same_owners (AccessListItem.setToViewerAllItems_loop user items).
Proof.
  induction items as [|it rest IH]; cbn [AccessListItem.setToViewerAllItems_loop];
    owners_solve; exact IH.
Qed.

Lemma removeAccessAllItems_loop_owners user items :
  preserves same_owners (AccessListItem.removeAccessAllItems_loop user items).
Proof.
  induction items as [|it rest IH]; cbn [AccessListItem.removeAccessAllItems_loop];
    owners_solve; exact IH.
Qed.

(** [setToViewerAllItems] and [removeAccessAllItems] only rewrite role
    lists: the ids, the order and the owner of every record stay as they
    were, for any collection. *)
Theorem bulk_ops_keep_owners o user st :
  owners (snd (AccessListItem.setToViewerAllItems o user st)) = owners st /\
  owners (snd (AccessListItem.removeAccessAllItems o user st)) = owners st.
Proof.
  split.
  - unfold AccessListItem.setToViewerAllItems, AccessListItem.getItemsByOwner.
    apply (bind_pres same_owners same_owners_trans);
      [apply readMany_pres, same_owners_refl | intros items].
    apply (bind_pres same_owners same_owners_trans);
      [apply setToViewerAllItems_loop_owners | intros _; apply ret_pres, same_owners_refl].
  - unfold AccessListItem.removeAccessAllItems.
    apply (bind_pres same_owners same_owners_trans);
      [apply readMany_pres, same_owners_refl | intros items].
    apply (bind_pres same_owners same_owners_trans);
      [apply removeAccessAllItems_loop_owners | intros _; apply ret_pres, same_owners_refl].
Qed.

(** With unique ids, [setToViewerAllItems(o, user)] adds [user] to the
    viewers of every record owned by [o] that lacks it and leaves every
    other record as it is. *)
Theorem setToViewerAllItems_effect st o user :
  ids_unique st ->
  docs (snd (AccessListItem.setToViewerAllItems o user st)) =
  map (fun x => if Nat.eqb (owner x) o then grant_viewer user x else x) (docs st).
Proof. apply setToViewerAllItems_docs_map. Qed.

(** With unique ids, [removeAccessAllItems(o, user)] rewrites every record
    owned by [o] that lists [user] as viewer or editor with the update of
    its loop body (viewers searched first), and leaves every other record. *)
Theorem removeAccessAllItems_effect st o user :
  ids_unique st ->
  docs (snd (AccessListItem.removeAccessAllItems o user st)) =
  map (fun x => if Nat.eqb (owner x) o &&
                   (includes (viewers x) user || includes (editors x) user)
                then apply_update (revoke_update user x) x else x) (docs st).
Proof. apply removeAccessAllItems_docs_map. Qed.

(** ** Witnesses *)

Ltac nodup_tac :=
  repeat (apply NoDup_cons; [simpl; intuition (try discriminate; lia) |]); apply NoDup_nil.

Lemma grant_then_check_ts_witness :
  lookup_id ts_store 0 <> None /\
  fst (AccessListTs.isViewer 7 0 (snd (AccessListTs.setToViewer 0 7 ts_store))) = Ret tt /\
  fst (AccessListTs.isEditor 7 0 (snd (AccessListTs.setToEditor 0 7 ts_store))) = Ret tt.
Proof.
  assert (h : lookup_id ts_store 0 <> None) by (vm_compute; discriminate).
  exact (conj h (grant_then_check_ts ts_store 0 7 h)).
Defined.

Lemma removeAccess_ts_revokes_viewer_witness :
  lookup_id ts_store 0 = Some (mkDoc 0 None 0 [5] [6]) /\
  In 6 (viewers (mkDoc 0 None 0 [5] [6])) /\ NoDup (viewers (mkDoc 0 None 0 [5] [6])) /\
  let st' := snd (AccessListTs.removeAccess 0 6 ts_store) in
  exists d', lookup_id st' 0 = Some d' /\ editors d' = editors (mkDoc 0 None 0 [5] [6]) /\
             ~ In 6 (viewers d') /\
             fst (AccessListTs.isViewer 6 0 st') = Throw (ItemViewerNotMatchError 6 0).
Proof.
  assert (h1 : lookup_id ts_store 0 = Some (mkDoc 0 None 0 [5] [6])) by (vm_compute; reflexivity).
  assert (h2 : In 6 (viewers (mkDoc 0 None 0 [5] [6]))) by (simpl; auto).
  assert (h3 : NoDup (viewers (mkDoc 0 None 0 [5] [6]))) by (simpl; nodup_tac).
  exact (conj h1 (conj h2 (conj h3 (removeAccess_ts_revokes_viewer ts_store 0 6 _ h1 h2 h3)))).
Defined.

Lemma removeAccess_ts_revokes_editor_witness :
  lookup_id ts_store 0 = Some (mkDoc 0 None 0 [5] [6]) /\
  ~ In 5 (viewers (mkDoc 0 None 0 [5] [6])) /\ In 5 (editors (mkDoc 0 None 0 [5] [6])) /\
  NoDup (editors (mkDoc 0 None 0 [5] [6])) /\
  let st' := snd (AccessListTs.removeAccess 0 5 ts_store) in
  exists d', lookup_id st' 0 = Some d' /\ viewers d' = viewers (mkDoc 0 None 0 [5] [6]) /\
             ~ In 5 (editors d') /\
             fst (AccessListTs.isEditor 5 0 st') = Throw (ItemEditorNotMatchError 5 0).
Proof.
  assert (h1 : lookup_id ts_store 0 = Some (mkDoc 0 None 0 [5] [6])) by (vm_compute; reflexivity).
  assert (h2 : ~ In 5 (viewers (mkDoc 0 None 0 [5] [6]))) by (simpl; intuition lia).
  assert (h3 : In 5 (editors (mkDoc 0 None 0 [5] [6]))) by (simpl; auto).
  assert (h4 : NoDup (editors (mkDoc 0 None 0 [5] [6]))) by (simpl; nodup_tac).
  exact (conj h1 (conj h2 (conj h3 (conj h4
           (removeAccess_ts_revokes_editor ts_store 0 5 _ h1 h2 h3 h4))))).
Defined.

Lemma deleteItem_ts_removes_exactly_witness :
  ids_unique ts_store3 /\
  docs (snd (AccessListTs.deleteItem 1 ts_store3)) =
  filter (fun d => negb (Nat.eqb (_id d) 1)) (docs ts_store3).
Proof.
  assert (h : ids_unique ts_store3) by (vm_compute; nodup_tac).
  exact (conj h (deleteItem_ts_removes_exactly ts_store3 1 h)).
Defined.

Lemma addItem_deleteItem_ts_roundtrip_witness :
  fresh_ids ts_store /\
  exists d, fst (AccessListTs.addItem 1 (Some [2]) None ts_store) = Ret (ItemAdded (Some d)) /\
            docs (snd (AccessListTs.deleteItem (_id d)
                         (snd (AccessListTs.addItem 1 (Some [2]) None ts_store)))) =
            docs ts_store.
Proof.
  assert (h : fresh_ids ts_store) by (unfold fresh_ids; vm_compute; repeat constructor).
  exact (conj h (addItem_deleteItem_ts_roundtrip ts_store 1 (Some [2]) None h)).
Defined.

Lemma addItem_item_then_isOwner_witness :
  Forall (fun d => item d <> Some 12) (docs bulk_store) /\
  let st' := snd (AccessListItem.addItem 12 3 None None bulk_store) in
  fst (AccessListItem.isOwner 3 12 st') = Ret tt /\
  forall v, v <> 3 -> fst (AccessListItem.isOwner v 12 st') = Throw (ItemOwnerNotMatchError v 12).
Proof.
  assert (h : Forall (fun d => item d <> Some 12) (docs bulk_store))
    by (vm_compute; repeat constructor; intros E; discriminate E).
  exact (conj h (addItem_item_then_isOwner bulk_store 12 3 None None h)).
Defined.

Lemma addItem_deleteItem_item_roundtrip_witness :
  Forall (fun d => item d <> Some 12) (docs bulk_store) /\
  docs (snd (AccessListItem.deleteItem 12 (snd (AccessListItem.addItem 12 3 (Some [0]) None bulk_store)))) =
  docs bulk_store.
Proof.
  assert (h : Forall (fun d => item d <> Some 12) (docs bulk_store))
    by (vm_compute; repeat constructor; intros E; discriminate E).
  exact (conj h (addItem_deleteItem_item_roundtrip bulk_store 12 3 (Some [0]) None h)).
Defined.

Lemma setToViewerAllItems_effect_witness :
  ids_unique bulk_store /\
  docs (snd (AccessListItem.setToViewerAllItems 0 1 bulk_store)) =
  map (fun x => if Nat.eqb (owner x) 0 then grant_viewer 1 x else x) (docs bulk_store).
Proof.
  assert (h : ids_unique bulk_store) by (vm_compute; nodup_tac).
  exact (conj h (setToViewerAllItems_effect bulk_store 0 1 h)).
Defined.

Lemma removeAccessAllItems_effect_witness :
  ids_unique bulk_store /\
  docs (snd (AccessListItem.removeAccessAllItems 1 2 bulk_store)) =
  map (fun x => if Nat.eqb (owner x) 1 &&
                   (includes (viewers x) 2 || includes (editors x) 2)
                then apply_update (revoke_update 2 x) x else x) (docs bulk_store).
Proof.
  assert (h : ids_unique bulk_store) by (vm_compute; nodup_tac).
  exact (conj h (removeAccessAllItems_effect bulk_store 1 2 h)).
Defined.

Lemma setToViewerAllItems_grants_witness :
  ids_unique bulk_store /\
  let st' := snd (AccessListItem.setToViewerAllItems 0 1 bulk_store) in
  (forall d, In d (docs st') -> owner d = 0 -> In 1 (viewers d)) /\
  filter (fun d => negb (Nat.eqb (owner d) 0)) (docs st') =
  filter (fun d => negb (Nat.eqb (owner d) 0)) (docs bulk_store) /\
  docs (snd (AccessListItem.setToViewerAllItems 0 1 st')) = docs st'.
Proof.
  assert (h : ids_unique bulk_store) by (vm_compute; nodup_tac).
  exact (conj h (setToViewerAllItems_grants bulk_store 0 1 h)).
Defined.

Lemma setToViewerAllItems_removeAccessAllItems_roundtrip_witness :
  ids_unique bulk_store /\
  (forall d, In d (docs bulk_store) -> owner d = 0 -> ~ In 1 (viewers d)) /\
  docs (snd (AccessListItem.removeAccessAllItems 0 1
               (snd (AccessListItem.setToViewerAllItems 0 1 bulk_store)))) = docs bulk_store.
Proof.
  assert (h1 : ids_unique bulk_store) by (vm_compute; nodup_tac).
  assert (h2 : forall d, In d (docs bulk_store) -> owner d = 0 -> ~ In 1 (viewers d)).
  { intros d Hd Ho; vm_compute in Hd; destruct Hd as [<-|[<-|[]]]; simpl in *;
      intuition (try discriminate; lia). }
  exact (conj h1 (conj h2 (setToViewerAllItems_removeAccessAllItems_roundtrip bulk_store 0 1 h1 h2))).
Defined.

Lemma friend_accept_then_remove_roundtrip_witness :
  1 <> 0 /\ ids_unique bulk_store /\
  (forall d, In d (docs bulk_store) -> owner d = 0 -> ~ In 1 (viewers d)) /\
  (forall d, In d (docs bulk_store) -> owner d = 1 -> ~ In 0 (viewers d)) /\
  docs (snd (Routes.removeFriend_access 1 0
               (snd (Routes.acceptFriendRequest_access 1 0 bulk_store)))) = docs bulk_store.
Proof.
  assert (h0 : 1 <> 0) by lia.
  assert (h1 : ids_unique bulk_store) by (vm_compute; nodup_tac).
  assert (h2 : forall d, In d (docs bulk_store) -> owner d = 0 -> ~ In 1 (viewers d)).
  { intros d Hd Ho; vm_compute in Hd; destruct Hd as [<-|[<-|[]]]; simpl in *;
      intuition (try discriminate; lia). }
  assert (h3 : forall d, In d (docs bulk_store) -> owner d = 1 -> ~ In 0 (viewers d)).
  { intros d Hd Ho; vm_compute in Hd; destruct Hd as [<-|[<-|[]]]; simpl in *;
      intuition (try discriminate; lia). }
  exact (conj h0 (conj h1 (conj h2 (conj h3
           (friend_accept_then_remove_roundtrip bulk_store 1 0 h0 h1 h2 h3))))).
Defined.

(** C6 (amended). For an existing record and a user who is not an editor
    of it, [setToEditor] then [removeAccess]: if the user is not a viewer
    either, the collection is given back exactly as it was; if the user is
    a viewer, [removeAccess] (which searches the viewers first) removes the
    first viewer entry of the user, and the new editor entry remains. *)
Theorem setToEditor_removeAccess_roundtrip st i u d :
  lookup_id st i = Some d -> ~ In u (editors d) ->
  (~ In u (viewers d) ->
   snd (AccessListTs.removeAccess i u (snd (AccessListTs.setToEditor i u st))) = st) /\
  (In u (viewers d) ->
   exists pre post, viewers d = pre ++ u :: post /\ ~ In u pre /\
     lookup_id (snd (AccessListTs.removeAccess i u (snd (AccessListTs.setToEditor i u st)))) i =
     Some (mkDoc (_id d) (item d) (owner d) (editors d ++ [u]) (pre ++ post))).
Proof.
  intros Hl He; split.
  - intros Hv.
    destruct (find_some_split _ _ _ Hl) as (pre & post & Hdocs & Hd & Hpre).
    apply (pre_not_id i []) in Hpre as Hpre1.
    apply (pre_not_id i [OrViewersEditors u]) in Hpre as Hpre2.
    rewrite TsSpec.setToEditor_spec, Hl, (proj2 (includes_false_not_In _ _) He); simpl snd.
    rewrite Hdocs, update_first_split by (exact Hpre1 || (rewrite matches_id; exact Hd)).
    unfold AccessListTs.removeAccess; unfold bind, readOne, ret, updateOne; cbn [docs next_id].
    rewrite find_split_prefix; [|exact Hpre2|].
    2:{ rewrite matches_id_cons; apply andb_true_iff; split; [exact Hd|].
        unfold matches; simpl; rewrite andb_true_r; apply orb_true_iff; right.
        apply includes_In, in_or_app; simpl; tauto. }
    cbn [apply_update viewers editors].
    rewrite (findIndex_not_In u (viewers d) Hv), findIndex_app_last by exact He.
    cbn [Z.eqb Pos.eqb negb].
    replace (Z.eqb (Z.of_nat (length (editors d))) (-1)) with false by (symmetry; apply Z.eqb_neq; lia).
    cbn [negb snd docs next_id].
    rewrite update_first_split; [| exact Hpre1 | rewrite matches_id; exact Hd].
    rewrite splice1_app_last.
    destruct d, st; simpl in *; subst; reflexivity.
  - intros Hv.
    rewrite TsSpec.setToEditor_spec, Hl, (proj2 (includes_false_not_In _ _) He); simpl snd.
    pose proof (TsMore.lookup_after_update i (SetEditors (editors d ++ [u])) st d Hl) as E1.
    rewrite (TsMore.removeAccess_spec_in _ _ _ _ E1 (or_introl Hv)).
    cbn [apply_update viewers editors]; rewrite (proj2 (includes_In _ _) Hv); simpl snd.
    rewrite (TsMore.lookup_after_update _ _ _ _ E1).
    destruct (splice1_findIndex u (viewers d) Hv) as (pre & post & Hvd & Hpre & Hs).
    exists pre, post; split; [exact Hvd | split; [exact Hpre|]].
    cbn [apply_update viewers editors]; rewrite Hs; destruct d; reflexivity.
Qed.

Lemma setToEditor_removeAccess_roundtrip_witness :
  let st := snd (AccessListTs.addItem 0 None (Some [5]) empty_store) in
  lookup_id st 0 = Some (mkDoc 0 None 0 [] [5]) /\ ~ In 6 [] /\ ~ In 6 [5] /\
  ~ In 5 [] /\ In 5 [5] /\
  snd (AccessListTs.removeAccess 0 6 (snd (AccessListTs.setToEditor 0 6 st))) = st /\
  exists pre post, [5] = pre ++ 5 :: post /\ ~ In 5 pre /\
    lookup_id (snd (AccessListTs.removeAccess 0 5 (snd (AccessListTs.setToEditor 0 5 st)))) 0 =
    Some (mkDoc 0 None 0 ([] ++ [5]) (pre ++ post)).
Proof.
  assert (E : lookup_id (snd (AccessListTs.addItem 0 None (Some [5]) empty_store)) 0 =
              Some (mkDoc 0 None 0 [] [5])) by (vm_compute; reflexivity).
  assert (He6 : ~ In 6 []) by (simpl; tauto).
  assert (Hv6 : ~ In 6 [5]) by (simpl; lia).
  assert (He5 : ~ In 5 []) by (simpl; tauto).
  assert (Hv5 : In 5 [5]) by (simpl; auto).
  exact (conj E (conj He6 (conj Hv6 (conj He5 (conj Hv5
           (conj (proj1 (setToEditor_removeAccess_roundtrip _ 0 6 _ E He6) Hv6)
                 (proj2 (setToEditor_removeAccess_roundtrip _ 0 5 _ E He5) Hv5))))))).
Defined.
